(** * fix-liquid-syntax: the remediation script of the documentation tree

    A shallow embedding of [scripts/fix-liquid-syntax.py].  The script reads
    each markdown file of a fixed list, applies four regular-expression
    substitutions that wrap Go-template and GitHub-Actions syntax in
    [{% raw %}] ... [{% endraw %}], and writes the file back when the text
    changed.

    Text is a list of Unicode code points (Python [str]).  The regular
    expressions of the script are run by a small backtracking matcher that
    tries alternatives in the order of Python's [re] module (greedy
    quantifiers longest first, lazy ones shortest first); [re.sub] scans the
    subject from left to right and replaces non-overlapping matches.

    The script as it stands does not compile.  Line 28, the [return] of the
    wrapping branch of [wrap_go_templates], is an f-string in which the
    single braces of [{% raw %}] and [{% endraw %}] open replacement fields,
    and [% raw %] is not an expression: loading the module raises
    [SyntaxError] and none of its statements runs.  The embedding follows
    the text of the script statement by statement and leaves the value of
    that one line open (the variable [line_28] of the section below).  What
    is proved holds for every text the line may return once it compiles,
    and says nothing on what that text is. *)

From Stdlib Require Import NArith Ascii String List Lia DecimalString.
From stdpp Require Import base option list gmap.

Abbreviation text := (list N).

(** ** Literals *)

Definition lit (s : string) : text :=
  map N_of_ascii (list_ascii_of_string s).

Definition NL : N := 10%N.
Definition BACKTICK : N := 96%N.
Definition LBRACE : N := 123%N.
Definition RBRACE : N := 125%N.
Definition DOLLAR : N := 36%N.
Definition DOT : N := 46%N.
Definition HYPHEN : N := 45%N.
Definition COLON : N := 58%N.
Definition SPACE : N := 32%N.
Definition UNDERSCORE : N := 95%N.

Definition RAW : text := Eval cbv in lit "{% raw %}".
Definition ENDRAW : text := Eval cbv in lit "{% endraw %}".
Definition FENCE : text := Eval cbv in lit "```".
Definition GO_DOT : text := Eval cbv in lit "{{.".
Definition GO_IF : text := Eval cbv in lit "{{if".
Definition GO_RANGE : text := Eval cbv in lit "{{range".
Definition GO_END : text := Eval cbv in lit "{{end}}".
Definition CLOSE : text := Eval cbv in lit "}}".
Definition ACTIONS_OPEN : text := Eval cbv in lit "${{".
Definition BRACES_OPEN : text := Eval cbv in lit "{{".

(** ** Python string primitives *)

(** [s.startswith(p)] *)
Fixpoint starts_with (p s : text) : bool :=
  match p, s with
  | [], _ => true
  | a :: p', b :: s' => N.eqb a b && starts_with p' s'
  | _ :: _, [] => false
  end.

(** [p in s] *)
Fixpoint contains (p s : text) : bool :=
  starts_with p s ||
  match s with
  | [] => false
  | _ :: s' => contains p s'
  end.

(** [s.split('\n')] *)
Fixpoint split_nl (s : text) : list text :=
  match s with
  | [] => [[]]
  | c :: s' =>
      if N.eqb c NL then [] :: split_nl s'
      else match split_nl s' with
           | l :: ls => (c :: l) :: ls
           | [] => [[c]]
           end
  end.

(** ['\n'.join(ls)] *)
Fixpoint join_nl (ls : list text) : text :=
  match ls with
  | [] => []
  | [l] => l
  | l :: ls' => l ++ NL :: join_nl ls'
  end.

Definition in_range (lo hi c : N) : bool := N.leb lo c && N.leb c hi.

(** [str.isspace] of one character, which is also the class [\s] of a
    Unicode pattern. *)
Definition is_space (c : N) : bool :=
  in_range 9 13 c || in_range 28 32 c || N.eqb c 133 || N.eqb c 160 ||
  N.eqb c 5760 || in_range 8192 8202 c || N.eqb c 8232 || N.eqb c 8233 ||
  N.eqb c 8239 || N.eqb c 8287 || N.eqb c 12288.

Fixpoint lstrip (s : text) : text :=
  match s with
  | c :: s' => if is_space c then lstrip s' else s
  | [] => []
  end.

Definition rstrip (s : text) : text := rev (lstrip (rev s)).

(** [s.strip()] *)
Definition strip (s : text) : text := rstrip (lstrip s).

(** [str(n)] for a non-negative integer *)
Definition decimal (n : nat) : text :=
  lit (NilEmpty.string_of_uint (Nat.to_uint n)).

(** ** The regular-expression matcher *)

(** The patterns of the script are sequences of single-character classes,
    each taken once or under a quantifier. *)
Inductive item :=
| Chr (c : N → bool)        (* one character of the class *)
| Star (c : N → bool)       (* c*   greedy *)
| Plus (c : N → bool)       (* c+   greedy *)
| LazyStar (c : N → bool).  (* c*?  lazy *)

(** A pattern with its capture groups; group [k] (from 1) spans the items
    [first, first + count). *)
Record regex := Regex { items : list item; groups : list (nat * nat) }.

(** Greedy repetition: take one more character when possible, and give it
    back when the rest of the pattern then fails. *)
Fixpoint greedy (c : N → bool) (k : text → option (list nat)) (s : text)
  : option (nat * list nat) :=
  let stop := pair 0 <$> k s in
  match s with
  | x :: s' =>
      if c x then
        match greedy c k s' with
        | Some (n, r) => Some (S n, r)
        | None => stop
        end
      else stop
  | [] => stop
  end.

(** Lazy repetition: try the rest of the pattern first, take one more
    character when it fails. *)
Fixpoint lazy_rep (c : N → bool) (k : text → option (list nat)) (s : text)
  : option (nat * list nat) :=
  match k s with
  | Some r => Some (0, r)
  | None =>
      match s with
      | x :: s' =>
          if c x then
            match lazy_rep c k s' with
            | Some (n, r) => Some (S n, r)
            | None => None
            end
          else None
      | [] => None
      end
  end.

(** [exec p s] matches [p] at the start of [s]; the result gives the number
    of characters each item consumed. *)
Fixpoint exec (p : list item) (s : text) : option (list nat) :=
  match p with
  | [] => Some []
  | Chr c :: p' =>
      match s with
      | x :: s' => if c x then cons 1 <$> exec p' s' else None
      | [] => None
      end
  | Star c :: p' => (λ nr, nr.1 :: nr.2) <$> greedy c (exec p') s
  | Plus c :: p' =>
      match s with
      | x :: s' =>
          if c x then (λ nr, S nr.1 :: nr.2) <$> greedy c (exec p') s'
          else None
      | [] => None
      end
  | LazyStar c :: p' => (λ nr, nr.1 :: nr.2) <$> lazy_rep c (exec p') s
  end.

(** The text of one group. *)
Definition span (lens : list nat) (s : text) (g : nat * nat) : text :=
  take (sum_list (take g.2 (drop g.1 lens))) (drop (sum_list (take g.1 lens)) s).

(** The match object: [group(0)] followed by the capture groups. *)
Definition match_obj (rx : regex) (lens : list nat) (s : text) : list text :=
  take (sum_list lens) s :: map (span lens s) (groups rx).

Definition group (m : list text) (k : nat) : text := default [] (m !! k).

(** [re.sub]: scan from the left; at a match emit the replacement and go on
    after it, otherwise copy one character.  [skip] counts the characters
    of the current match still to be passed over.  The four patterns of the
    script start with a literal character, so no match is empty; the empty
    case is written as Python 3.7 and later treat it (replace, then copy). *)
Fixpoint sub_from (rx : regex) (repl : list text → text) (skip : nat) (s : text)
  : text :=
  match s with
  | [] =>
      match skip with
      | 0 => match exec (items rx) [] with
             | Some lens => repl (match_obj rx lens [])
             | None => []
             end
      | S _ => []
      end
  | x :: s' =>
      match skip with
      | S k => sub_from rx repl k s'
      | 0 =>
          match exec (items rx) s with
          | Some lens =>
              repl (match_obj rx lens s) ++
              match sum_list lens with
              | 0 => x :: sub_from rx repl 0 s'
              | S n => sub_from rx repl n s'
              end
          | None => x :: sub_from rx repl 0 s'
          end
      end
  end.

Definition re_sub (rx : regex) (repl : list text → text) (s : text) : text :=
  sub_from rx repl 0 s.

(** A replacement template: literal text and back-references. *)
Inductive piece := Text (t : text) | Ref (k : nat).

Definition expand (tpl : list piece) (m : list text) : text :=
  concat (map (λ p, match p with Text t => t | Ref k => group m k end) tpl).

(** [r'{% raw %}\1{% endraw %}'] *)
Definition raw_template : list piece := [Text RAW; Ref 1; Text ENDRAW].

(** ** Effects: the file system and the console *)

(** What a path names: a directory, or a regular file with its permission
    bits and its bytes.  The bytes are given by the text they decode to as
    UTF-8, when they do.  Every path can be looked up (the directories that
    lead to it can be searched). *)
Inductive node :=
| Directory
| Regular (readable : bool) (decoded : option text) (writable : bool).

Abbreviation store := (gmap text node).

Inductive event :=
| EvExists (path : text) (found : bool)
| EvRead (path : text)
| EvWrite (path : text) (content : text)
| EvPrint (line : text).

(** A computation ends by returning a value or by raising an exception,
    which nothing in the script catches; either way it leaves a store and
    the events it caused up to there. *)
Inductive outcome (A : Type) :=
| Done (a : A) (fs : store) (t : list event)
| Raised (fs : store) (t : list event).
Arguments Done {A} a fs t.
Arguments Raised {A} fs t.

Definition IO (A : Type) : Type := store → outcome A.

(** The outcome after the events [t]. *)
Definition prepend {A} (t : list event) (o : outcome A) : outcome A :=
  match o with
  | Done a fs t' => Done a fs (t ++ t')
  | Raised fs t' => Raised fs (t ++ t')
  end.

Definition trace_of {A} (o : outcome A) : list event :=
  match o with Done _ _ t => t | Raised _ t => t end.

Definition store_of {A} (o : outcome A) : store :=
  match o with Done _ fs _ => fs | Raised fs _ => fs end.

Definition returns {A} (o : outcome A) : Prop :=
  match o with Done _ _ _ => True | Raised _ _ => False end.

Definition io_ret {A} (a : A) : IO A := λ fs, Done a fs [].

(** Going on with [k] after an outcome: an exception ends the run. *)
Definition and_then {A B} (o : outcome A) (k : A → IO B) : outcome B :=
  match o with
  | Done a fs1 t1 => prepend t1 (k a fs1)
  | Raised fs1 t1 => Raised fs1 t1
  end.

Definition io_bind {A B} (m : IO A) (f : A → IO B) : IO B :=
  λ fs, and_then (m fs) f.

(** The monad notations [x ← m; k] and [m;; k] are those of stdpp. *)
Global Instance io_mbind : MBind IO := λ A B f m, io_bind m f.

(** Text-mode reading translates [\r\n] and a lone [\r] to [\n]. *)
Fixpoint universal_newlines (s : text) : text :=
  match s with
  | [] => []
  | c :: s' =>
      if N.eqb c 13 then
        match s' with
        | d :: s'' => if N.eqb d 10 then 10%N :: universal_newlines s''
                      else 10%N :: universal_newlines s'
        | [] => [10%N]
        end
      else c :: universal_newlines s'
  end.

(** [open(path, 'r', encoding='utf-8').read()]: [open] raises for a missing
    path, a directory and a file without read permission, [read] raises for
    bytes that are not UTF-8. *)
Definition read_file (path : text) : IO text :=
  λ fs,
    match fs !! path with
    | Some (Regular true (Some stored) _) =>
        Done (universal_newlines stored) fs [EvRead path]
    | _ => Raised fs []
    end.

(** [open(path, 'w', encoding='utf-8').write(content)] on a POSIX host (the
    script's shebang line), where [os.linesep] is the newline itself:
    [open] raises for a directory and a file without write permission, and
    creates a missing file. *)
Definition write_file (path content : text) : IO unit :=
  λ fs,
    match fs !! path with
    | Some Directory => Raised fs []
    | Some (Regular r _ w) =>
        if w then Done () (<[path := Regular r (Some content) w]> fs)
                      [EvWrite path content]
        else Raised fs []
    | None =>
        Done () (<[path := Regular true (Some content) true]> fs)
             [EvWrite path content]
    end.

(** [Path.exists()], true of a directory as of a file. *)
Definition path_exists (path : text) : IO bool :=
  λ fs,
    let found := bool_decide (is_Some (fs !! path)) in
    Done found fs [EvExists path found].

(** [docs_dir / file_path] for a relative [file_path], as a string. *)
Definition path_join (dir file : text) : text := dir ++ 47%N :: file.

(** ** The script *)

Section Script.

(** The part of [\w] outside ASCII: the alphanumeric characters of the
    Unicode database, which the interpreter supplies. *)
Variable uni_alnum : N → bool.

(** The directory [Path(__file__).parent.parent / 'docs']. *)
Variable docs_dir : text.

(** The text returned at line 28 of the script for [lang] and [code].  The
    line reads [return f'{% raw %}...{lang}...{code}...{% endraw %}']: in an
    f-string a single brace opens a replacement field, [% raw %] is not an
    expression, and the interpreter rejects the line, and with it the whole
    module, with a [SyntaxError] before any statement runs.  The source
    therefore gives this text no value; it is left open here, and every
    property below holds whatever text the line returns once it is made to
    compile. *)
Variable line_28 : text → text → text.

(** Whether the console's encoding can take a line: [print] raises
    [UnicodeEncodeError] when [sys.stdout] cannot encode a character of it
    (the check mark and the ballot X under an ASCII locale). *)
Variable console_ok : text → bool.

(** [print(line)] *)
Definition print (line : text) : IO unit :=
  λ fs, if console_ok line then Done () fs [EvPrint line] else Raised fs [].

(** *** Character classes of the patterns *)

Definition is_chr (a c : N) : bool := N.eqb c a.
Definition any_char (c : N) : bool := true.

(** [\w] *)
Definition is_word (c : N) : bool :=
  if N.ltb c 128
  then in_range 48 57 c || in_range 65 90 c || in_range 97 122 c
       || N.eqb c UNDERSCORE
  else uni_alnum c.

(** [[\w-]] *)
Definition is_word_or_hyphen (c : N) : bool := is_word c || N.eqb c HYPHEN.

(** [[^}]] *)
Definition not_rbrace (c : N) : bool := negb (N.eqb c RBRACE).

(** [[A-Z]] *)
Definition is_upper (c : N) : bool := in_range 65 90 c.

(** *** The four patterns *)

(** [r'```( \w* )\n( .*? )```'] (written here with spaces inside the groups),
    with [re.DOTALL] *)
Definition rx_fence : regex :=
  Regex [Chr (is_chr BACKTICK); Chr (is_chr BACKTICK); Chr (is_chr BACKTICK);
         Star is_word; Chr (is_chr NL); LazyStar any_char;
         Chr (is_chr BACKTICK); Chr (is_chr BACKTICK); Chr (is_chr BACKTICK)]
        [(3, 1); (5, 1)].

(** [r'(\{\{\.[\w-]+\}\})'] *)
Definition rx_inline : regex :=
  Regex [Chr (is_chr LBRACE); Chr (is_chr LBRACE); Chr (is_chr DOT);
         Plus is_word_or_hyphen; Chr (is_chr RBRACE); Chr (is_chr RBRACE)]
        [(0, 6)].

(** [r'(\$\{\{[^}]+\}\})'] *)
Definition rx_actions : regex :=
  Regex [Chr (is_chr DOLLAR); Chr (is_chr LBRACE); Chr (is_chr LBRACE);
         Plus not_rbrace; Chr (is_chr RBRACE); Chr (is_chr RBRACE)]
        [(0, 6)].

(** [r'(\{\{[A-Z]\w*:\s*[^}]+\}\})'] *)
Definition rx_struct : regex :=
  Regex [Chr (is_chr LBRACE); Chr (is_chr LBRACE); Chr is_upper; Star is_word;
         Chr (is_chr COLON); Star is_space; Plus not_rbrace;
         Chr (is_chr RBRACE); Chr (is_chr RBRACE)]
        [(0, 9)].

(** *** Pattern 1: fenced code blocks *)

Definition has_go_marker (block : text) : bool :=
  contains GO_DOT block || contains GO_IF block || contains GO_RANGE block
  || contains GO_END block.

Definition wrap_go_templates (m : list text) : text :=
  let block := group m 0 in
  if has_go_marker block && negb (contains RAW block) then
    let lang := match group m 1 with [] => [] | g => g end in
    let code := group m 2 in
    line_28 lang code
  else block.

Definition rule_code_blocks (content : text) : text :=
  re_sub rx_fence wrap_go_templates content.

(** *** Pattern 2: inline references, line by line *)

(** [f"Line {i+1}: Wrapped Go template syntax"] *)
Definition change_note (i : nat) : text :=
  lit "Line " ++ decimal (i + 1) ++ lit ": Wrapped Go template syntax".

(** The body of the [for] loop at index [i], on the list of lines being
    updated in place and the list of change notes. *)
Definition inline_step (i : nat) (line : text) (st : list text * list text)
  : list text * list text :=
  if contains RAW line || contains ENDRAW line || starts_with FENCE (strip line)
  then st
  else if contains GO_DOT line && negb (contains FENCE line) then
    let lines := <[i := re_sub rx_inline (expand raw_template) line]> st.1 in
    if bool_decide (lines !! i = Some line) then (lines, st.2)
    else (lines, st.2 ++ [change_note i])
  else st.

(** [for i, line in enumerate(lines)]: the iterator reads [lines[i]] until
    the index runs off the list, whose length never changes. *)
Fixpoint inline_loop (n i : nat) (st : list text * list text)
  : list text * list text :=
  match n with
  | 0 => st
  | S n' =>
      match st.1 !! i with
      | Some line => inline_loop n' (S i) (inline_step i line st)
      | None => st
      end
  end.

(** The lines after the loop, and the change notes. *)
Definition inline_pass (content : text) : list text * list text :=
  let lines := split_nl content in
  inline_loop (length lines) 0 (lines, []).

Definition rule_inline (content : text) : text :=
  join_nl (inline_pass content).1.

(** *** Patterns 3 and 4 *)

Definition rule_actions (content : text) : text :=
  re_sub rx_actions (expand raw_template) content.

Definition rule_struct (content : text) : text :=
  re_sub rx_struct (expand raw_template) content.

(** *** fix_file *)

(** The text [fix_file] computes from the text it read. *)
Definition transform (content : text) : text :=
  rule_struct (rule_actions (rule_inline (rule_code_blocks content))).

Definition fix_file (filepath : text) : IO bool :=
  original ← read_file filepath;
  let content := rule_code_blocks original in
  let '(lines, changes) := inline_pass content in
  let content := join_nl lines in
  let content := rule_actions content in
  let content := rule_struct content in
  if bool_decide (content ≠ original) then
    write_file filepath content;; io_ret true
  else io_ret false.

(** *** main *)

Definition files_to_fix : list text :=
  [lit "concepts/templates.md";
   lit "concepts/prompts.md";
   lit "packc/explanation/compilation.md";
   lit "packc/explanation/pack-format.md";
   lit "packc/how-to/compile-packs.md";
   lit "packc/reference/compile-prompt.md";
   lit "runtime/how-to/manage-state.md";
   lit "runtime/explanation/middleware-design.md";
   lit "runtime/explanation/state-management.md";
   lit "workflows/deployment-workflow.md";
   lit "workflows/development-workflow.md"].

Definition CHECK_MARK : N := 10003%N.
Definition BALLOT_X : N := 10007%N.

Definition msg_processing (file_path : text) : text :=
  lit "Processing " ++ file_path ++ lit "...".
Definition msg_fixed : text := lit "  " ++ CHECK_MARK :: lit " Fixed".
Definition msg_no_changes : text := lit "  - No changes needed".
Definition msg_not_found (full_path : text) : text :=
  lit "  " ++ BALLOT_X :: lit " File not found: " ++ full_path.
Definition msg_summary (fixed_count : nat) : text :=
  NL :: lit "Fixed " ++ decimal fixed_count ++ lit " files".

(** The [for file_path in files_to_fix] loop, carrying [fixed_count]. *)
Fixpoint process_files (files : list text) (fixed_count : nat) : IO nat :=
  match files with
  | [] => io_ret fixed_count
  | file_path :: rest =>
      let full_path := path_join docs_dir file_path in
      found ← path_exists full_path;
      if (found : bool) then
        print (msg_processing file_path);;
        changed ← fix_file full_path;
        if (changed : bool) then
          print msg_fixed;; process_files rest (S fixed_count)
        else
          print msg_no_changes;; process_files rest fixed_count
      else
        print (msg_not_found full_path);; process_files rest fixed_count
  end.

Definition main : IO unit :=
  fixed_count ← process_files files_to_fix 0;
  print (msg_summary fixed_count).

(** ** Definitions used to state the properties *)

(** What the loop of pattern 2 does to one line. *)
Definition fix_line (line : text) : text :=
  if contains RAW line || contains ENDRAW line || starts_with FENCE (strip line)
  then line
  else if contains GO_DOT line && negb (contains FENCE line)
  then re_sub rx_inline (expand raw_template) line
  else line.

(** [fix_file] without the list of change notes. *)
Definition inline_step_plain (i : nat) (line : text) (lines : list text)
  : list text :=
  if contains RAW line || contains ENDRAW line || starts_with FENCE (strip line)
  then lines
  else if contains GO_DOT line && negb (contains FENCE line)
  then <[i := re_sub rx_inline (expand raw_template) line]> lines
  else lines.

Fixpoint inline_loop_plain (n i : nat) (lines : list text) : list text :=
  match n with
  | 0 => lines
  | S n' =>
      match lines !! i with
      | Some line => inline_loop_plain n' (S i) (inline_step_plain i line lines)
      | None => lines
      end
  end.

Definition fix_file_no_changes (filepath : text) : IO bool :=
  original ← read_file filepath;
  let content := rule_code_blocks original in
  let lines := split_nl content in
  let lines := inline_loop_plain (length lines) 0 lines in
  let content := join_nl lines in
  let content := rule_actions content in
  let content := rule_struct content in
  if bool_decide (content ≠ original) then
    write_file filepath content;; io_ret true
  else io_ret false.

(** A text is wrapped by putting the raw markers around it. *)
Definition wrapped (t : text) : text := RAW ++ t ++ ENDRAW.

(** A fenced block, and the block between a raw line and an endraw line. *)
Definition fenced (tag body : text) : text := FENCE ++ tag ++ NL :: body ++ FENCE.

(** What pattern 1 makes of a block it matches. *)
Definition block_result (tag body : text) : text :=
  if has_go_marker (fenced tag body) && negb (contains RAW (fenced tag body))
  then line_28 tag body else fenced tag body.




(** The text after the opening fence that a text starts with, when it
    starts with one: after three backticks, word characters and a
    newline. *)
Fixpoint after_tag (s : text) : option text :=
  match s with
  | [] => None
  | c :: s' =>
      if N.eqb c NL then Some s'
      else if is_word c then after_tag s' else None
  end.

Definition opening_rest (s : text) : option text :=
  if starts_with FENCE s then after_tag (drop 3 s) else None.

(** No opening fence of the text has a triple backtick after it. *)
Fixpoint unclosed (s : text) : bool :=
  match opening_rest s with
  | Some rest => negb (contains FENCE rest)
  | None => true
  end
  && match s with
     | [] => true
     | _ :: s' => unclosed s'
     end.

(** The dotted token [{{.name}}]. *)
Definition go_token (name : text) : text := GO_DOT ++ name ++ CLOSE.
Definition is_name (name : text) : Prop :=
  name ≠ [] ∧ Forall (λ c, is_word_or_hyphen c = true) name.

(** No dotted token occurs in the text. *)
Definition token_free (t : text) : Prop :=
  ∀ a name b, t = a ++ go_token name ++ b → ¬ is_name name.

(** A line cut into the text between its tokens and the tokens' names;
    [f] is applied to every token. *)
Fixpoint weave (f : text → text) (parts : list (text * text)) (last : text)
  : text :=
  match parts with
  | [] => last
  | (plain, name) :: rest => plain ++ f (go_token name) ++ weave f rest last
  end.

(** The spans of patterns 3 and 4. *)
Definition actions_span (x : text) : text := ACTIONS_OPEN ++ x ++ CLOSE.
Definition struct_open (u : N) (w : text) : text :=
  BRACES_OPEN ++ u :: w ++ [COLON].
Definition struct_span (u : N) (w v : text) : text :=
  struct_open u w ++ SPACE :: v ++ CLOSE.

(** The openings of the spans. *)
Definition actions_opener (o : text) : Prop := o = ACTIONS_OPEN.
Definition struct_opener (o : text) : Prop :=
  ∃ u w, o = struct_open u w ∧ is_upper u = true
         ∧ Forall (λ c, is_word c = true) w.


Definition actions_claim (pre x post : text) : Prop :=
  x ≠ [] → RBRACE ∉ x →
  ∃ pre' post',
    rule_actions (pre ++ actions_span x ++ post)
    = pre' ++ wrapped (actions_span x) ++ post'.

Definition struct_claim (pre : text) (u : N) (w v post : text) : Prop :=
  is_upper u = true → Forall (λ c, is_word c = true) w → v ≠ [] → RBRACE ∉ v →
  ∃ pre' post',
    rule_struct (pre ++ struct_span u w v ++ post)
    = pre' ++ wrapped (struct_span u w v) ++ post'.

End Script.

(** What a pattern item accepts. *)
Definition item_ok (it : item) (w : text) : Prop :=
  match it with
  | Chr c => ∃ x, w = [x] ∧ c x = true
  | Star c | LazyStar c => Forall (λ x, c x = true) w
  | Plus c => w ≠ [] ∧ Forall (λ x, c x = true) w
  end.

(** What main does for a listed file that is missing. *)
Definition skip_events (full_path : text) : list event :=
  [EvExists full_path false; EvPrint (msg_not_found full_path)].

(** Every opening in the text is followed by a closing brace in it. *)
Definition closed_before (opener : text → Prop) (pre : text) : Prop :=
  ∀ p1 o p2, pre = p1 ++ o ++ p2 → opener o → RBRACE ∈ p2.

(** ** Definitions for the properties of the whole run *)

Definition CR : N := 13%N.

(** The characters the rules with a template insert: those of the two
    markers. *)
Definition marker_text : text := RAW ++ ENDRAW.

(** The indices, from [i] on, at which two lists of lines differ. *)
Fixpoint modified_from (i : nat) (before after : list text) : list nat :=
  match before, after with
  | b :: bs, a :: as' =>
      (if decide (a = b) then [] else [i]) ++ modified_from (S i) bs as'
  | _, _ => []
  end.

Definition modified_lines (before after : list text) : list nat :=
  modified_from 0 before after.

(** Reading a trace: the paths checked, the paths read, the number of
    writes. *)
Definition checked_paths (t : list event) : list text :=
  omap (λ e, match e with EvExists p _ => Some p | _ => None end) t.

Definition read_paths (t : list event) : list text :=
  omap (λ e, match e with EvRead p => Some p | _ => None end) t.

Definition write_count (t : list event) : nat :=
  length (omap (λ e, match e with EvWrite p _ => Some p | _ => None end) t).

(** The listed files that exist in a store, as full paths, in list order. *)
Definition present_paths (docs_dir : text) (files : list text)
    (fs : store) : list text :=
  filter (λ p, is_Some (fs !! p)) (map (path_join docs_dir) files).

(** ** Inputs of the examples *)

(** A table without alphanumeric characters outside ASCII. *)
Definition ascii_only : N → bool := λ _, false.

Definition example_docs_dir : text := Eval cbv in lit "/repo/docs".

(** A console that can show every character, and one that can show ASCII
    only. *)
Definition utf8_console : text → bool := λ _, true.
Definition ascii_console : text → bool := forallb (λ c, N.ltb c 128).

(** A value for line 28, used in the examples only: the block between a
    raw line and an endraw line, which is what the line reads as when the
    braces of its two markers are doubled. *)
Definition example_line_28 (lang code : text) : text :=
  RAW ++ NL :: FENCE ++ lang ++ NL :: code ++ FENCE ++ NL :: ENDRAW.

(** A file that can be read and written. *)
Definition plain_file (content : text) : node := Regular true (Some content) true.

(** [Output: "Hello, {{.name}}!"], cut at its token. *)
Definition QUOTE : N := 34%N.
Definition hello_before : text := lit "Output: " ++ QUOTE :: lit "Hello, ".
Definition hello_name : text := lit "name".
Definition hello_after : text := [33%N; QUOTE].


(** ** Tactics *)

(** Takes apart a [Forall2] over a pattern written out item by item. *)
Ltac invert_pieces H :=
  repeat match type of H with
  | Forall2 _ (_ :: _) _ =>
      let y := fresh "w" in let ys := fresh "ps" in
      let Hy := fresh "Hw" in
      apply Forall2_cons_inv_l in H as (y & ys & Hy & H & ->);
      simpl in Hy
  | Forall2 _ [] _ => apply Forall2_nil_inv_l in H as ->
  end.

Ltac chr_eq :=
  repeat match goal with
  | H : ∃ x, _ = [x] ∧ _ |- _ => destruct H as (? & -> & H)
  | H : is_chr _ _ = true |- _ => apply N.eqb_eq in H; subst
  end.

(** Brings nested appends to the form [a :: b :: l1 ++ c :: l2]. *)
Ltac norm_app := repeat (progress (rewrite <- ?app_assoc; cbn [app])).

(** * Properties *)

(** ** Strings *)

Lemma starts_with_spec (p s : text) :
  starts_with p s = true ↔ ∃ r, s = p ++ r.
Proof.
  revert s. induction p as [|a p IH]; intros s; simpl.
  - split; [intros _; by exists s | done].
  - destruct s as [|b s].
    + split; [done | intros [r E]; discriminate].
    + rewrite andb_true_iff, N.eqb_eq, IH. split.
      * intros [-> [r ->]]. by exists r.
      * intros [r E]. injection E as -> ->. eauto.
Qed.

Lemma contains_spec (p s : text) :
  contains p s = true ↔ ∃ a b, s = a ++ p ++ b.
Proof.
  induction s as [|x s IH]; simpl.
  - rewrite orb_false_r, starts_with_spec. split.
    + intros [r E]. by exists [], r.
    + intros (a & b & E). destruct a; [by exists b | discriminate].
  - rewrite orb_true_iff, starts_with_spec, IH. split.
    + intros [[r E] | (a & b & E)].
      * by exists [], r.
      * exists (x :: a), b. by rewrite E.
    + intros (a & b & E). destruct a as [|y a].
      * left. by exists b.
      * right. injection E as -> ->. by exists a, b.
Qed.

Lemma contains_false (p s : text) :
  contains p s = false ↔ ∀ a b, s ≠ a ++ p ++ b.
Proof.
  rewrite <- not_true_iff_false, contains_spec. split.
  - intros H a b E. apply H. eauto.
  - intros H (a & b & E). by eapply H.
Qed.

Lemma contains_app_l (p a b : text) :
  contains p (a ++ b) = false → contains p a = false.
Proof.
  rewrite !contains_false. intros H x y E. apply (H x (y ++ b)).
  rewrite E. by rewrite <- !app_assoc.
Qed.

Lemma contains_app_r (p a b : text) :
  contains p (a ++ b) = false → contains p b = false.
Proof.
  rewrite !contains_false. intros H x y E. apply (H (a ++ x) y).
  rewrite E. by rewrite <- !app_assoc.
Qed.

(** The first occurrence of a character splits a text in one way only. *)
Lemma first_split_unique (x : N) (a a' b b' : text) :
  x ∉ a → x ∉ a' → a ++ x :: b = a' ++ x :: b' → a = a' ∧ b = b'.
Proof.
  revert a'. induction a as [|y a IH]; intros [|y' a'] Ha Ha' E; simpl in E.
  - by injection E.
  - injection E as -> _. exfalso. apply Ha'. by left.
  - injection E as -> _. exfalso. apply Ha. by left.
  - injection E as -> E. apply not_elem_of_cons in Ha as [_ Ha].
    apply not_elem_of_cons in Ha' as [_ Ha'].
    destruct (IH a' Ha Ha' E) as [-> ->]. done.
Qed.

Lemma split_nl_not_nil (s : text) : split_nl s ≠ [].
Proof. destruct s as [|c s]; simpl; [done|]. by repeat case_match. Qed.

Lemma join_split_nl (s : text) : join_nl (split_nl s) = s.
Proof.
  induction s as [|c s IH]; simpl; [done|].
  destruct (N.eqb_spec c NL) as [->|Hc].
  - pose proof (split_nl_not_nil s). simpl.
    destruct (split_nl s) eqn:E; [done|]. by rewrite IH.
  - destruct (split_nl s) as [|l ls] eqn:E; [by destruct (split_nl_not_nil s)|].
    destruct ls; simpl in *; by f_equal.
Qed.

Lemma split_nl_no_newline (s : text) :
  Forall (λ l : text, NL ∉ l) (split_nl s).
Proof.
  induction s as [|c s IH]; simpl.
  - repeat constructor. by inversion 1.
  - destruct (N.eqb_spec c NL) as [->|Hc].
    + constructor; [by inversion 1 | done].
    + destruct (split_nl s) as [|l ls] eqn:E; [by destruct (split_nl_not_nil s)|].
      inversion IH; subst. constructor; [|done].
      rewrite not_elem_of_cons. split; [congruence | done].
Qed.

Lemma split_nl_line (l : text) (s : text) :
  NL ∉ l → split_nl (l ++ NL :: s) = l :: split_nl s.
Proof.
  induction l as [|c l IH]; intros Hl; simpl.
  - done.
  - apply not_elem_of_cons in Hl as [Hc Hl].
    destruct (N.eqb_spec c NL) as [E|_]; [congruence|].
    by rewrite IH.
Qed.

Lemma split_nl_last (l : text) : NL ∉ l → split_nl l = [l].
Proof.
  induction l as [|c l IH]; intros Hl; simpl; [done|].
  apply not_elem_of_cons in Hl as [Hc Hl].
  destruct (N.eqb_spec c NL) as [E|_]; [congruence|].
  by rewrite IH.
Qed.

Lemma split_join_nl (ls : list text) :
  ls ≠ [] → Forall (λ l : text, NL ∉ l) ls → split_nl (join_nl ls) = ls.
Proof.
  induction ls as [|l ls IH]; intros Hne Hls; [done|].
  inversion Hls as [|? ? Hl Hls']; subst.
  destruct ls as [|l' ls].
  - simpl. by apply split_nl_last.
  - change (join_nl (l :: l' :: ls)) with (l ++ NL :: join_nl (l' :: ls)).
    rewrite split_nl_line by done. f_equal. by apply IH.
Qed.

Lemma join_nl_sublist (ls ls' : list text) :
  Forall2 sublist ls ls' → join_nl ls `sublist_of` join_nl ls'.
Proof.
  induction 1 as [|l l' ls ls' Hl Hls IH]; [done|].
  destruct Hls as [|m m' ms ms' Hm Hms].
  - done.
  - change (l ++ NL :: join_nl (m :: ms) `sublist_of`
            l' ++ NL :: join_nl (m' :: ms')).
    apply sublist_app; [done|]. by apply sublist_skip.
Qed.

(** ** The matcher *)

Lemma greedy_sound c k (s : text) n r :
  greedy c k s = Some (n, r) →
  ∃ a b, s = a ++ b ∧ length a = n ∧ Forall (λ x, c x = true) a ∧ k b = Some r.
Proof.
  revert n r. induction s as [|x s IH]; intros n r; simpl.
  - intros (r' & Hk & E)%fmap_Some. injection E as -> ->. by exists [], [].
  - assert (Hstop : pair 0 <$> k (x :: s) = Some (n, r) →
      ∃ a b, x :: s = a ++ b ∧ length a = n ∧ Forall (λ x, c x = true) a
             ∧ k b = Some r).
    { intros (r' & Hk & E)%fmap_Some. injection E as -> ->.
      by exists [], (x :: s). }
    destruct (c x) eqn:Hc; [|done].
    destruct (greedy c k s) as [[n' r']|] eqn:Hg; [|done].
    intros E. injection E as <- <-.
    destruct (IH n' r' eq_refl) as (a & b & -> & Hlen & Ha & Hk).
    exists (x :: a), b. simpl. repeat split; auto.
Qed.

Lemma lazy_sound c k (s : text) n r :
  lazy_rep c k s = Some (n, r) →
  ∃ a b, s = a ++ b ∧ length a = n ∧ Forall (λ x, c x = true) a ∧ k b = Some r.
Proof.
  revert n r. induction s as [|x s IH]; intros n r; simpl.
  - destruct (k []) eqn:Hk; [|done]. intros E. injection E as <- <-.
    by exists [], [].
  - destruct (k (x :: s)) eqn:Hk.
    + intros E. injection E as <- <-. by exists [], (x :: s).
    + destruct (c x) eqn:Hc; [|done].
      destruct (lazy_rep c k s) as [[n' r']|] eqn:Hg; [|done].
      intros E. injection E as <- <-.
      destruct (IH n' r' eq_refl) as (a & b & -> & Hlen & Ha & Hk').
      exists (x :: a), b. simpl. repeat split; auto.
Qed.

(** A match cuts the subject into one piece per item, each accepted by its
    item, and a rest. *)
Lemma exec_sound p (s : text) lens :
  exec p s = Some lens →
  ∃ pieces rest,
    s = concat pieces ++ rest ∧ Forall2 item_ok p pieces
    ∧ lens = map length pieces.
Proof.
  revert s lens. induction p as [|it p IH]; intros s lens; simpl.
  - intros E. injection E as <-. by exists [], s.
  - destruct it as [c|c|c|c].
    + destruct s as [|x s]; [done|]. destruct (c x) eqn:Hc; [|done].
      intros (l & Hl & ->)%fmap_Some.
      destruct (IH _ _ Hl) as (ps & rest & -> & Hps & ->).
      exists ([x] :: ps), rest. split_and!; [done| |done].
      constructor; [by exists x | done].
    + intros ([n r] & Hg & ->)%fmap_Some.
      destruct (greedy_sound _ _ _ _ _ Hg) as (a & b & -> & <- & Ha & Hk).
      destruct (IH _ _ Hk) as (ps & rest & -> & Hps & ->).
      exists (a :: ps), rest. simpl. rewrite <- app_assoc.
      split_and!; [done| |done]. by constructor.
    + destruct s as [|x s]; [done|]. destruct (c x) eqn:Hc; [|done].
      intros ([n r] & Hg & ->)%fmap_Some.
      destruct (greedy_sound _ _ _ _ _ Hg) as (a & b & -> & <- & Ha & Hk).
      destruct (IH _ _ Hk) as (ps & rest & -> & Hps & ->).
      exists ((x :: a) :: ps), rest. simpl. rewrite <- app_assoc.
      split_and!; [done| |done]. constructor; [|done]. split; [done|].
      by constructor.
    + intros ([n r] & Hg & ->)%fmap_Some.
      destruct (lazy_sound _ _ _ _ _ Hg) as (a & b & -> & <- & Ha & Hk).
      destruct (IH _ _ Hk) as (ps & rest & -> & Hps & ->).
      exists (a :: ps), rest. simpl. rewrite <- app_assoc.
      split_and!; [done| |done]. by constructor.
Qed.

Lemma sum_list_map_length (pieces : list text) :
  sum_list (map length pieces) = length (concat pieces).
Proof.
  induction pieces as [|a ps IH]; simpl; [done|].
  rewrite length_app. lia.
Qed.

Lemma exec_length p (s : text) lens :
  exec p s = Some lens → length lens = length p.
Proof.
  intros (ps & rest & _ & Hps & ->)%exec_sound.
  rewrite length_map. symmetry. by eapply Forall2_length.
Qed.

(** The matched text is a prefix of the subject. *)
Lemma exec_prefix p (s : text) lens :
  exec p s = Some lens →
  s = take (sum_list lens) s ++ drop (sum_list lens) s
  ∧ length (take (sum_list lens) s) = sum_list lens.
Proof.
  intros (ps & rest & -> & Hps & ->)%exec_sound.
  rewrite sum_list_map_length, take_app_length, drop_app_length. done.
Qed.

(** A greedy quantifier takes the whole run of its class when the rest of
    the pattern matches after it. *)
Lemma greedy_max c k (w s : text) r :
  Forall (λ x, c x = true) w →
  match s with x :: _ => c x = false | [] => True end →
  k s = Some r →
  greedy c k (w ++ s) = Some (length w, r).
Proof.
  intros Hw Hs Hk. induction Hw as [|x w Hx Hw IH]; simpl.
  - destruct s as [|y s]; simpl; rewrite ?Hs, Hk; done.
  - by rewrite Hx, IH.
Qed.

(** It finds some match whenever one exists. *)
Lemma greedy_complete c k (a s : text) :
  Forall (λ x, c x = true) a → is_Some (k s) → is_Some (greedy c k (a ++ s)).
Proof.
  intros Ha [r Hk]. induction Ha as [|x a Hx Ha IH]; simpl.
  - destruct s as [|y s]; simpl; [by rewrite Hk|].
    destruct (c y); [|by rewrite Hk].
    destruct (greedy c k s) as [[n' r']|]; [done | by rewrite Hk].
  - rewrite Hx. destruct IH as [[n' r'] ->]. done.
Qed.


Lemma lazy_complete c k (a s : text) :
  Forall (λ x, c x = true) a → is_Some (k s) → is_Some (lazy_rep c k (a ++ s)).
Proof.
  intros Ha [r Hk]. induction Ha as [|x a Hx Ha IH]; simpl.
  - destruct s; simpl; by rewrite Hk.
  - destruct (k (x :: a ++ s)); [done|]. rewrite Hx.
    destruct IH as [[n' r'] ->]. done.
Qed.

(** Backtracking finds a match whenever the subject starts with pieces the
    items accept. *)
Lemma exec_complete p pieces (rest : text) :
  Forall2 item_ok p pieces → is_Some (exec p (concat pieces ++ rest)).
Proof.
  induction 1 as [|it w p ps Hit Hps IH]; simpl; [done|].
  rewrite <- app_assoc. destruct it as [c|c|c|c]; simpl in Hit.
  - destruct Hit as (x & -> & Hx). simpl. rewrite Hx.
    destruct IH as [l ->]. done.
  - destruct (greedy_complete c (exec p) w _ Hit IH) as [nr ->]. done.
  - destruct Hit as [Hne Hw]. destruct Hw as [|x w Hx Hw]; [done|].
    simpl. rewrite Hx.
    destruct (greedy_complete c (exec p) w _ Hw IH) as [nr ->]. done.
  - destruct (lazy_complete c (exec p) w _ Hit IH) as [nr ->]. done.
Qed.

(** ** [re.sub] *)

Lemma sub_from_skip rx repl (a s : text) :
  sub_from rx repl (length a) (a ++ s) = sub_from rx repl 0 s.
Proof.
  induction a as [|x a IH]; simpl; [done|]. exact IH.
Qed.

Lemma re_sub_nil rx repl :
  exec (items rx) [] = None → re_sub rx repl [] = [].
Proof. unfold re_sub. simpl. by intros ->. Qed.

Lemma re_sub_nomatch rx repl (x : N) (s : text) :
  exec (items rx) (x :: s) = None →
  re_sub rx repl (x :: s) = x :: re_sub rx repl s.
Proof. unfold re_sub. cbn [sub_from]. by intros ->. Qed.

Lemma re_sub_match rx repl (a b : text) lens :
  exec (items rx) (a ++ b) = Some lens → a ≠ [] → sum_list lens = length a →
  re_sub rx repl (a ++ b) = repl (match_obj rx lens (a ++ b)) ++ re_sub rx repl b.
Proof.
  intros He Ha Hlen. destruct a as [|x a]; [done|]. unfold re_sub.
  change ((x :: a) ++ b) with (x :: (a ++ b)) in *.
  cbn [sub_from]. rewrite He, Hlen. cbn [length].
  by rewrite sub_from_skip.
Qed.

(** A text in which the pattern matches nowhere is left as it is. *)
Lemma re_sub_clean rx repl (s : text) :
  (∀ i, exec (items rx) (drop i s) = None) → re_sub rx repl s = s.
Proof.
  induction s as [|x s IH]; intros H.
  - apply re_sub_nil. apply (H 0).
  - rewrite re_sub_nomatch by apply (H 0). f_equal. apply IH.
    intros i. apply (H (S i)).
Qed.

(** When every replacement keeps the matched text as a subsequence, so does
    the substitution. *)
Lemma sub_from_sublist rx repl :
  (∀ (s : text) lens, exec (items rx) s = Some lens →
     take (sum_list lens) s `sublist_of` repl (match_obj rx lens s)) →
  ∀ (s : text) skip, drop skip s `sublist_of` sub_from rx repl skip s.
Proof.
  intros Hrepl. induction s as [|x s IH]; intros skip.
  - rewrite drop_nil. apply sublist_nil_l.
  - destruct skip as [|k]; cbn [sub_from]; [|apply IH].
    rewrite drop_0.
    destruct (exec (items rx) (x :: s)) as [lens|] eqn:He.
    + specialize (Hrepl _ _ He). destruct (sum_list lens) as [|n].
      * apply sublist_inserts_l, sublist_skip. apply (IH 0).
      * rewrite <- (take_drop (S n) (x :: s)) at 1.
        apply sublist_app; [done|]. apply IH.
    + apply sublist_skip. apply (IH 0).
Qed.

Lemma re_sub_sublist rx repl :
  (∀ (s : text) lens, exec (items rx) s = Some lens →
     take (sum_list lens) s `sublist_of` repl (match_obj rx lens s)) →
  ∀ s : text, s `sublist_of` re_sub rx repl s.
Proof. intros H s. apply (sub_from_sublist rx repl H s 0). Qed.

(** The template [{% raw %}\1{% endraw %}] on a pattern whose group 1 is the
    whole match. *)
Lemma expand_raw_template rx (s : text) lens :
  groups rx = [(0, length (items rx))] → exec (items rx) s = Some lens →
  expand raw_template (match_obj rx lens s)
  = wrapped (take (sum_list lens) s).
Proof.
  intros Hg He. unfold expand, match_obj, group, wrapped. rewrite Hg. simpl.
  unfold span. simpl.
  rewrite <- (exec_length _ _ _ He), firstn_all, !drop_0. done.
Qed.

(** The groups of a match, read off the pieces. *)
Lemma sum_take_length (pieces : list text) i :
  sum_list (take i (map length pieces)) = length (concat (take i pieces)).
Proof. by rewrite <- fmap_take, sum_list_map_length. Qed.

Lemma span_pieces (pieces : list text) (rest : text) (g : nat * nat) :
  span (map length pieces) (concat pieces ++ rest) g
  = concat (take g.2 (drop g.1 pieces)).
Proof.
  unfold span. destruct g as [i k]. simpl.
  rewrite <- fmap_drop, !sum_take_length.
  assert (E : ∀ (n : nat) (l : list text),
             concat l = concat (take n l) ++ concat (drop n l)).
  { intros n l. by rewrite <- concat_app, take_drop. }
  rewrite (E i pieces), <- app_assoc, drop_app_length.
  rewrite (E k (drop i pieces)), <- app_assoc, take_app_length. done.
Qed.

Lemma exec_match_obj rx (s : text) lens :
  exec (items rx) s = Some lens →
  ∃ pieces rest,
    s = concat pieces ++ rest ∧ Forall2 item_ok (items rx) pieces
    ∧ sum_list lens = length (concat pieces)
    ∧ match_obj rx lens s
      = concat pieces
        :: map (λ g, concat (take g.2 (drop g.1 pieces))) (groups rx).
Proof.
  intros (ps & rest & -> & Hps & ->)%exec_sound.
  exists ps, rest. split_and!; [done|done|apply sum_list_map_length|].
  unfold match_obj. rewrite sum_list_map_length, take_app_length. f_equal.
  apply map_ext. intros g. apply span_pieces.
Qed.

Lemma sublist_same_length {A} (l1 l2 : list A) :
  l1 `sublist_of` l2 → length l2 ≤ length l1 → l1 = l2.
Proof.
  induction 1 as [|x l1 l2 H IH|x l1 l2 H IH]; simpl; intros Hlen.
  - done.
  - f_equal. apply IH. lia.
  - apply sublist_length in H. lia.
Qed.




(** One step of [re.sub] with the template [{% raw %}\1{% endraw %}]. *)
Lemma re_sub_wrap rx (sp rest : text) lens :
  groups rx = [(0, length (items rx))] →
  exec (items rx) (sp ++ rest) = Some lens → sum_list lens = length sp →
  sp ≠ [] →
  re_sub rx (expand raw_template) (sp ++ rest)
  = wrapped sp ++ re_sub rx (expand raw_template) rest.
Proof.
  intros Hg He Hsum Hne.
  rewrite (re_sub_match _ _ _ _ _ He Hne Hsum).
  rewrite (expand_raw_template _ _ _ Hg He), Hsum, take_app_length. done.
Qed.



Lemma exec_plus_max c p (x : N) (w s : text) r :
  c x = true → Forall (λ x, c x = true) w →
  match s with x :: _ => c x = false | [] => True end →
  exec p s = Some r →
  exec (Plus c :: p) (x :: w ++ s) = Some (S (length w) :: r).
Proof.
  intros Hx Hw Hs Hk. cbn [exec]. by rewrite Hx, (greedy_max c _ w s r).
Qed.


Section Properties.

Variable uni_alnum : N → bool.
Variable docs_dir : text.
Variable line_28 : text → text → text.
Variable console_ok : text → bool.

(** ** The loop of pattern 2 *)

Lemma inline_step_fst i line st :
  (inline_step uni_alnum i line st).1
  = inline_step_plain uni_alnum i line st.1.
Proof.
  unfold inline_step, inline_step_plain.
  repeat case_match; done.
Qed.

Lemma inline_loop_fst n i st :
  (inline_loop uni_alnum n i st).1 = inline_loop_plain uni_alnum n i st.1.
Proof.
  revert i st. induction n as [|n IH]; intros i st; simpl; [done|].
  destruct (st.1 !! i) as [line|]; [|done].
  by rewrite IH, inline_step_fst.
Qed.

Lemma inline_step_plain_middle (pre rest : list text) line :
  inline_step_plain uni_alnum (length pre) line (pre ++ line :: rest)
  = pre ++ fix_line uni_alnum line :: rest.
Proof.
  unfold inline_step_plain, fix_line.
  repeat case_match; try done.
  rewrite insert_app_r_alt by lia. by rewrite Nat.sub_diag.
Qed.

(** The loop rewrites every line on its own. *)
Lemma inline_loop_plain_map (rest pre : list text) :
  inline_loop_plain uni_alnum (length rest) (length pre) (pre ++ rest)
  = pre ++ map (fix_line uni_alnum) rest.
Proof.
  revert pre. induction rest as [|line rest IH]; intros pre; simpl; [done|].
  rewrite list_lookup_middle by done.
  rewrite inline_step_plain_middle.
  replace (S (length pre)) with (length (pre ++ [fix_line uni_alnum line]))
    by (rewrite length_app; simpl; lia).
  rewrite (cons_middle _ pre rest), app_assoc, IH, <- app_assoc. done.
Qed.

Lemma inline_pass_lines (content : text) :
  (inline_pass uni_alnum content).1
  = map (fix_line uni_alnum) (split_nl content).
Proof.
  unfold inline_pass. rewrite inline_loop_fst. simpl.
  apply (inline_loop_plain_map (split_nl content) []).
Qed.

Lemma rule_inline_lines (content : text) :
  rule_inline uni_alnum content
  = join_nl (map (fix_line uni_alnum) (split_nl content)).
Proof. unfold rule_inline. by rewrite inline_pass_lines. Qed.

(** ** Outcomes *)

Lemma prepend_nil {A} (o : outcome A) : prepend [] o = o.
Proof. by destruct o. Qed.

Lemma prepend_prepend {A} (t t' : list event) (o : outcome A) :
  prepend t (prepend t' o) = prepend (t ++ t') o.
Proof. destruct o; simpl; by rewrite app_assoc. Qed.

Lemma and_then_prepend {A B} (t : list event) (o : outcome A) (k : A → IO B) :
  and_then (prepend t o) k = prepend t (and_then o k).
Proof. destruct o; simpl; [|done]. by rewrite prepend_prepend. Qed.

Lemma store_of_prepend {A} (t : list event) (o : outcome A) :
  store_of (prepend t o) = store_of o.
Proof. by destruct o. Qed.

Lemma trace_of_prepend {A} (t : list event) (o : outcome A) :
  trace_of (prepend t o) = t ++ trace_of o.
Proof. by destruct o. Qed.

Lemma returns_prepend {A} (t : list event) (o : outcome A) :
  returns (prepend t o) ↔ returns o.
Proof. by destruct o. Qed.

(** ** fix_file *)

Lemma fix_file_run (filepath : text) (fs : store) :
  fix_file uni_alnum line_28 filepath fs =
  match fs !! filepath with
  | Some (Regular true (Some stored) w) =>
      let original := universal_newlines stored in
      let result := transform uni_alnum line_28 original in
      if bool_decide (result ≠ original) then
        if w then
          Done true (<[filepath := Regular true (Some result) true]> fs)
               [EvRead filepath; EvWrite filepath result]
        else Raised fs [EvRead filepath]
      else Done false fs [EvRead filepath]
  | _ => Raised fs []
  end.
Proof.
  unfold fix_file, mbind, io_mbind, io_bind, read_file.
  destruct (fs !! filepath) as [[|[] [stored|] w]|] eqn:Hfs; try done.
  simpl. unfold transform, rule_inline.
  destruct (inline_pass uni_alnum _) as [lines changes]. simpl.
  case_bool_decide; [|done].
  unfold mbind, io_mbind, io_bind, write_file. rewrite Hfs.
  by destruct w.
Qed.

(** C8: the list of change notes has no effect on what fix_file does: the
    variant that never builds it has the same outcome (the same Boolean or
    the same exception, the same store, the same events) on every store
    and path, whatever text line 28 returns. *)
Theorem change_notes_unobservable (filepath : text) (fs : store) :
  fix_file_no_changes uni_alnum line_28 filepath fs
  = fix_file uni_alnum line_28 filepath fs.
Proof.
  unfold fix_file, fix_file_no_changes, mbind, io_mbind, io_bind, read_file.
  destruct (fs !! filepath) as [[|[] [stored|] w]|]; try done. simpl.
  pose proof (inline_loop_fst
    (length (split_nl (rule_code_blocks uni_alnum line_28
                         (universal_newlines stored))))
    0 (split_nl (rule_code_blocks uni_alnum line_28
                   (universal_newlines stored)), []))
    as H.
  simpl in H. rewrite <- H. unfold inline_pass.
  destruct (inline_loop uni_alnum _ 0 _) as [lines changes]. done.
Qed.

(** C2: on a file it can read and write, fix_file either writes nothing,
    leaves the store as it was and returns False, or writes once, the text
    obtained by applying the four rules in order to the text it read, and
    returns True; it writes exactly when that text differs from the text
    read.  This holds whatever text line 28 returns. *)
Theorem fix_file_all_or_nothing
    (filepath stored : text) (fs : store) :
  fs !! filepath = Some (Regular true (Some stored) true) →
  let original := universal_newlines stored in
  let result :=
    rule_struct uni_alnum
      (rule_actions
         (rule_inline uni_alnum (rule_code_blocks uni_alnum line_28 original)))
  in
  (result = original
   ∧ fix_file uni_alnum line_28 filepath fs = Done false fs [EvRead filepath])
  ∨ (result ≠ original
     ∧ fix_file uni_alnum line_28 filepath fs
       = Done true (<[filepath := Regular true (Some result) true]> fs)
              [EvRead filepath; EvWrite filepath result]).
Proof.
  intros Hfs original result. rewrite fix_file_run, Hfs.
  fold original. change (transform uni_alnum line_28 original) with result.
  cbv zeta. case_bool_decide as Hd.
  - right. done.
  - left. split; [|done]. destruct (decide (result = original)); done.
Qed.

(** ** main *)

(** One round of the loop, case by case. *)
Lemma process_files_cons (file : text) (rest : list text) (n : nat) (fs : store) :
  let full := path_join docs_dir file in
  process_files uni_alnum docs_dir line_28 console_ok (file :: rest) n fs
  = match fs !! full with
    | None =>
        if console_ok (msg_not_found full)
        then prepend (skip_events full)
               (process_files uni_alnum docs_dir line_28 console_ok rest n fs)
        else Raised fs [EvExists full false]
    | Some nd =>
        if console_ok (msg_processing file) then
          match fix_file uni_alnum line_28 full fs with
          | Done true fs' t =>
              if console_ok msg_fixed
              then prepend
                     (EvExists full true :: EvPrint (msg_processing file)
                      :: t ++ [EvPrint msg_fixed])
                     (process_files uni_alnum docs_dir line_28 console_ok
                        rest (S n) fs')
              else Raised fs' (EvExists full true
                               :: EvPrint (msg_processing file) :: t)
          | Done false fs' t =>
              if console_ok msg_no_changes
              then prepend
                     (EvExists full true :: EvPrint (msg_processing file)
                      :: t ++ [EvPrint msg_no_changes])
                     (process_files uni_alnum docs_dir line_28 console_ok
                        rest n fs')
              else Raised fs' (EvExists full true
                               :: EvPrint (msg_processing file) :: t)
          | Raised fs' t =>
              Raised fs' (EvExists full true
                          :: EvPrint (msg_processing file) :: t)
          end
        else Raised fs [EvExists full true]
    end.
Proof.
  intros full. cbn [process_files]. fold full.
  unfold mbind, io_mbind. unfold io_bind at 1, path_exists. cbn [and_then].
  destruct (fs !! full) as [nd|] eqn:Hfs.
  - rewrite bool_decide_eq_true_2 by eauto.
    unfold io_bind at 1, print at 1.
    destruct (console_ok (msg_processing file)); [|done].
    cbn [and_then prepend app]. unfold io_bind at 1.
    destruct (fix_file uni_alnum line_28 full fs) as [[] fs' t|fs' t];
      cbn [and_then prepend app]; [| |done].
    + unfold io_bind, print. destruct (console_ok msg_fixed).
      * cbn [and_then]. rewrite !prepend_prepend. cbn [app].
        by rewrite <- ?app_assoc.
      * cbn [and_then prepend]. by rewrite app_nil_r.
    + unfold io_bind, print. destruct (console_ok msg_no_changes).
      * cbn [and_then]. rewrite !prepend_prepend. cbn [app].
        by rewrite <- ?app_assoc.
      * cbn [and_then prepend]. by rewrite app_nil_r.
  - rewrite bool_decide_eq_false_2 by (by intros [? ?]).
    unfold io_bind, print.
    destruct (console_ok (msg_not_found full)); [|done].
    cbn [and_then]. by rewrite prepend_prepend.
Qed.

Lemma process_files_missing (file : text) (rest : list text) (n : nat) (fs : store) :
  fs !! path_join docs_dir file = None →
  console_ok (msg_not_found (path_join docs_dir file)) = true →
  process_files uni_alnum docs_dir line_28 console_ok (file :: rest) n fs
  = prepend (skip_events (path_join docs_dir file))
      (process_files uni_alnum docs_dir line_28 console_ok rest n fs).
Proof. intros Hfs Hc. by rewrite process_files_cons, Hfs, Hc. Qed.

(** What fix_file leaves of the store: the other paths as they were, and
    at its own path a node where there was one. *)
Lemma fix_file_store (filepath : text) (fs : store) (q : text) :
  let o := fix_file uni_alnum line_28 filepath fs in
  (q ≠ filepath → store_of o !! q = fs !! q)
  ∧ (is_Some (store_of o !! q) ↔ is_Some (fs !! q)).
Proof.
  cbv zeta. rewrite fix_file_run.
  destruct (fs !! filepath) as [[|[] [stored|] w]|] eqn:Hfs; try done.
  cbv zeta. case_bool_decide; [|done]. destruct w; [|done].
  cbn [store_of]. split.
  - intros Hq. by rewrite lookup_insert_ne.
  - destruct (decide (q = filepath)) as [->|Hq].
    + rewrite lookup_insert_eq, Hfs. split; eauto.
    + by rewrite lookup_insert_ne.
Qed.

(** The events of fix_file: a read of its path, then at most one write to
    it. *)
Lemma fix_file_trace (filepath : text) (fs : store) :
  let t := trace_of (fix_file uni_alnum line_28 filepath fs) in
  t = [] ∨ t = [EvRead filepath] ∨ ∃ c, t = [EvRead filepath; EvWrite filepath c].
Proof.
  cbv zeta. rewrite fix_file_run.
  destruct (fs !! filepath) as [[|[] [stored|] w]|]; auto.
  cbv zeta. case_bool_decide; [|auto]. destruct w; eauto.
Qed.

(** Whatever the outcome, the loop creates no file, and neither reads nor
    writes a path that is missing at its start. *)
Lemma process_files_missing_kept (files : list text) (n : nat) (fs : store) (q : text) :
  fs !! q = None →
  let o := process_files uni_alnum docs_dir line_28 console_ok files n fs in
  store_of o !! q = None
  ∧ Forall (λ e, e ≠ EvRead q ∧ ∀ c, e ≠ EvWrite q c) (trace_of o).
Proof.
  cbv zeta. revert n fs. induction files as [|file rest IH]; intros n fs Hq.
  - simpl. split; [done|]. constructor.
  - rewrite process_files_cons. cbv zeta.
    set (full := path_join docs_dir file).
    destruct (fs !! full) as [nd|] eqn:Hfs.
    + assert (q ≠ full) as Hne by congruence.
      pose proof (fix_file_store full fs q) as [Hst _].
      pose proof (fix_file_trace full fs) as Htr. cbv zeta in Hst, Htr.
      specialize (Hst Hne).
      assert (Forall (λ e, e ≠ EvRead q ∧ ∀ c, e ≠ EvWrite q c)
                (trace_of (fix_file uni_alnum line_28 full fs))) as Hev.
      { destruct Htr as [E|[E|[c E]]]; rewrite E;
          rewrite ?Forall_cons, ?Forall_nil; split_and?;
          first [done | congruence | intros ?; congruence]. }
      destruct (console_ok (msg_processing file));
        [destruct (fix_file uni_alnum line_28 full fs) as [[] fs' t|fs' t];
         cbn [store_of trace_of] in Hst, Hev;
         [destruct (console_ok msg_fixed); [pose proof (IH (S n) fs') as IH'|]
         |destruct (console_ok msg_no_changes); [pose proof (IH n fs') as IH'|]
         |]|];
        rewrite ?store_of_prepend, ?trace_of_prepend; cbn [store_of trace_of];
        try (destruct IH' as [IH1 IH2]; [by rewrite Hst|]);
        (split; [by rewrite ?Hst|]);
        rewrite ?app_comm_cons, ?Forall_app, ?Forall_cons, ?Forall_nil;
        split_and?;
        first [done | congruence | intros ?; congruence].
    + destruct (console_ok (msg_not_found full)).
      * rewrite store_of_prepend, trace_of_prepend.
        destruct (IH n fs Hq) as [IH1 IH2]. split; [done|].
        unfold skip_events.
        rewrite ?Forall_app, ?Forall_cons, ?Forall_nil; split_and?;
          first [done | congruence | intros ?; congruence].
      * cbn [store_of trace_of]. split; [done|].
        rewrite ?Forall_cons, ?Forall_nil; split_and?;
          first [done | congruence | intros ?; congruence].
Qed.

(** Processing a list is processing its parts one after the other. *)
Lemma process_files_app (l1 l2 : list text) (n : nat) (fs : store) :
  process_files uni_alnum docs_dir line_28 console_ok (l1 ++ l2) n fs
  = and_then (process_files uni_alnum docs_dir line_28 console_ok l1 n fs)
      (process_files uni_alnum docs_dir line_28 console_ok l2).
Proof.
  revert n fs. induction l1 as [|file l1 IH]; intros n fs.
  - simpl. unfold io_ret. simpl. by rewrite prepend_nil.
  - change ((file :: l1) ++ l2) with (file :: (l1 ++ l2)).
    rewrite !process_files_cons. cbv zeta.
    repeat case_match; try done; by rewrite IH, and_then_prepend.
Qed.

Lemma main_run (fs : store) :
  main uni_alnum docs_dir line_28 console_ok fs
  = and_then
      (process_files uni_alnum docs_dir line_28 console_ok files_to_fix 0 fs)
      (λ n, print console_ok (msg_summary n)).
Proof. done. Qed.

Lemma and_then_assoc {A B C} (o : outcome A) (k : A → IO B) (k' : B → IO C) :
  and_then (and_then o k) k' = and_then o (λ a fs, and_then (k a fs) k').
Proof. destruct o; simpl; [|done]. by rewrite and_then_prepend. Qed.

(** C7: a listed file that is missing makes main print the line
    [  ✗ File not found: <full path>] (on a console that can show it); the
    file is neither read nor written and is not created, the count goes on
    unchanged to the files after it, which are processed in order on the
    store as the files before it left it, and the summary line follows
    them. *)
Theorem missing_file_is_skipped
    (before after : list text) (file : text) (fs fs1 : store)
    (n1 : nat) (t1 : list event) :
  files_to_fix = before ++ file :: after →
  fs !! path_join docs_dir file = None →
  let full := path_join docs_dir file in
  let message := lit "  " ++ 10007%N :: lit " File not found: " ++ full in
  console_ok message = true →
  process_files uni_alnum docs_dir line_28 console_ok before 0 fs
  = Done n1 fs1 t1 →
  let rest_of_run :=
    and_then
      (process_files uni_alnum docs_dir line_28 console_ok after n1 fs1)
      (λ n, print console_ok (msg_summary n)) in
  main uni_alnum docs_dir line_28 console_ok fs
  = prepend (t1 ++ [EvExists full false; EvPrint message]) rest_of_run
  ∧ store_of rest_of_run !! full = None
  ∧ ∀ e, e ∈ t1 ++ trace_of rest_of_run →
      e ≠ EvRead full ∧ ∀ c, e ≠ EvWrite full c.
Proof.
  intros Hlist Hfs full message Hc H1 rest_of_run.
  pose proof (process_files_missing_kept before 0 fs full Hfs) as Hb.
  cbv zeta in Hb. rewrite H1 in Hb. cbn [store_of trace_of] in Hb.
  destruct Hb as [Hfs1 Ht1].
  pose proof (process_files_missing_kept after n1 fs1 full Hfs1) as Ha.
  cbv zeta in Ha. destruct Ha as [Hfs2 Ht2].
  rewrite Forall_forall in Ht1, Ht2.
  split_and!.
  - rewrite main_run, Hlist, process_files_app, H1. cbn [and_then].
    rewrite (process_files_missing _ _ _ _ Hfs1 Hc).
    rewrite !and_then_prepend, !prepend_prepend. done.
  - unfold rest_of_run.
    destruct (process_files _ _ _ _ after n1 fs1) as [n2 fs2 t2|fs2 t2];
      cbn [and_then store_of] in *; [|done].
    rewrite store_of_prepend. unfold print.
    by destruct (console_ok (msg_summary n2)).
  - intros e [He|He]%elem_of_app; [auto|].
    unfold rest_of_run in He.
    destruct (process_files _ _ _ _ after n1 fs1) as [n2 fs2 t2|fs2 t2];
      cbn [and_then trace_of] in *; [|auto].
    rewrite trace_of_prepend in He. apply elem_of_app in He as [He|He]; [auto|].
    unfold print in He. destruct (console_ok (msg_summary n2));
      cbn [trace_of] in He.
    + apply elem_of_cons in He as [->|He]; [|by apply elem_of_nil in He].
      split; [|intros ?]; congruence.
    + by apply elem_of_nil in He.
Qed.

End Properties.

Section Rules.

Variable uni_alnum : N → bool.

(** ** What the four patterns match *)

Lemma exec_fence_inv (s : text) lens :
  exec (items (rx_fence uni_alnum)) s = Some lens →
  ∃ tag body rest,
    s = fenced tag body ++ rest
    ∧ Forall (λ c, is_word uni_alnum c = true) tag
    ∧ sum_list lens = length (fenced tag body)
    ∧ match_obj (rx_fence uni_alnum) lens s = [fenced tag body; tag; body].
Proof.
  intros (ps & rest & -> & Hps & Hsum & Hobj)%exec_match_obj.
  simpl in Hps. invert_pieces Hps. chr_eq.
  exists w2, w4, rest. rewrite Hobj, Hsum. simpl.
  unfold fenced. simpl. rewrite !app_nil_r, <- !app_assoc. simpl.
  rewrite <- !app_assoc. done.
Qed.

Lemma wrap_fence_obj (line_28 : text → text → text) (tag body : text) :
  wrap_go_templates line_28 [fenced tag body; tag; body]
  = block_result line_28 tag body.
Proof.
  unfold wrap_go_templates, block_result.
  change (group [fenced tag body; tag; body] 0) with (fenced tag body).
  change (group [fenced tag body; tag; body] 1) with tag.
  change (group [fenced tag body; tag; body] 2) with body.
  destruct (has_go_marker _ && negb _); [|done].
  by destruct tag.
Qed.

Lemma rbrace_not_name c : is_word_or_hyphen uni_alnum c = true → c ≠ RBRACE.
Proof. intros H ->. discriminate. Qed.

Lemma newline_not_name c : is_word_or_hyphen uni_alnum c = true → c ≠ NL.
Proof. intros H ->. discriminate. Qed.

Lemma newline_not_word c : is_word uni_alnum c = true → c ≠ NL.
Proof. intros H ->. discriminate. Qed.

Lemma not_elem_of_Forall (c : N) (P : N → Prop) (l : text) :
  Forall P l → ¬ P c → c ∉ l.
Proof. intros Hl Hc Hin. rewrite Forall_forall in Hl. auto. Qed.

Lemma not_rbrace_Forall (l : text) :
  Forall (λ c, not_rbrace c = true) l ↔ RBRACE ∉ l.
Proof.
  rewrite Forall_forall. split.
  - intros H Hin. specialize (H _ Hin). discriminate.
  - intros H c Hc. unfold not_rbrace. destruct (N.eqb_spec c RBRACE); [|done].
    subst. done.
Qed.

Lemma space_not_rbrace (l : text) :
  Forall (λ c, is_space c = true) l → RBRACE ∉ l.
Proof. intros H. eapply not_elem_of_Forall; [exact H|]. discriminate. Qed.

Lemma exec_inline_inv (s : text) lens :
  exec (items (rx_inline uni_alnum)) s = Some lens →
  ∃ name rest,
    s = go_token name ++ rest ∧ is_name uni_alnum name
    ∧ sum_list lens = length (go_token name).
Proof.
  intros (ps & rest & -> & Hps & Hsum & _)%exec_match_obj.
  simpl in Hps. invert_pieces Hps. chr_eq. destruct Hw2 as [Hne Hw2].
  exists w2, rest. rewrite Hsum. unfold go_token. simpl.
  rewrite ?app_nil_r, <- ?app_assoc. done.
Qed.

Lemma exec_actions_inv (s : text) lens :
  exec (items rx_actions) s = Some lens →
  ∃ x rest,
    s = actions_span x ++ rest ∧ x ≠ [] ∧ (RBRACE ∉ x)
    ∧ sum_list lens = length (actions_span x).
Proof.
  intros (ps & rest & -> & Hps & Hsum & _)%exec_match_obj.
  simpl in Hps. invert_pieces Hps. chr_eq. destruct Hw2 as [Hne Hw2].
  exists w2, rest. rewrite Hsum. unfold actions_span. simpl.
  rewrite ?app_nil_r, <- ?app_assoc. by rewrite <- not_rbrace_Forall.
Qed.

Lemma exec_struct_inv (s : text) lens :
  exec (items (rx_struct uni_alnum)) s = Some lens →
  ∃ u w z rest,
    s = struct_open u w ++ z ++ CLOSE ++ rest
    ∧ is_upper u = true ∧ Forall (λ c, is_word uni_alnum c = true) w
    ∧ z ≠ [] ∧ (RBRACE ∉ z)
    ∧ sum_list lens = length (struct_open u w ++ z ++ CLOSE).
Proof.
  intros (ps & rest & -> & Hps & Hsum & _)%exec_match_obj.
  simpl in Hps. invert_pieces Hps. chr_eq. destruct Hw5 as [Hne Hw5].
  eexists _, w2, (w4 ++ w5), rest. rewrite Hsum. unfold struct_open. simpl.
  rewrite ?app_nil_r, <- ?app_assoc. simpl. rewrite <- ?app_assoc.
  split_and!; try done.
  - by destruct w4.
  - rewrite not_elem_of_app. split; [by apply space_not_rbrace|].
    by rewrite <- not_rbrace_Forall.
Qed.




Lemma exec_inline_intro (name rest : text) :
  is_name uni_alnum name →
  ∃ lens,
    exec (items (rx_inline uni_alnum)) (go_token name ++ rest) = Some lens
    ∧ sum_list lens = length (go_token name).
Proof.
  intros [Hne Hname]. destruct Hname as [|x name Hx Hname]; [done|].
  exists [1; 1; 1; S (length name); 1; 1]. split.
  - unfold go_token. simpl. rewrite Hx, <- app_assoc.
    erewrite greedy_max; [done|done|done|]. done.
  - unfold go_token. simpl. rewrite length_app. simpl. lia.
Qed.

Lemma exec_actions_intro (x rest : text) :
  x ≠ [] → RBRACE ∉ x →
  ∃ lens,
    exec (items rx_actions) (actions_span x ++ rest) = Some lens
    ∧ sum_list lens = length (actions_span x).
Proof.
  intros Hne Hx. apply not_rbrace_Forall in Hx.
  destruct Hx as [|c x Hc Hx]; [done|].
  exists [1; 1; 1; S (length x); 1; 1]. split.
  - unfold actions_span. simpl. rewrite Hc, <- app_assoc.
    erewrite greedy_max; [done|done|done|]. done.
  - unfold actions_span. simpl. rewrite length_app. simpl. lia.
Qed.

Lemma colon_not_word (w : text) :
  Forall (λ c, is_word uni_alnum c = true) w → COLON ∉ w.
Proof. intros H. eapply not_elem_of_Forall; [exact H|]. discriminate. Qed.

Lemma exec_struct_intro (u : N) (w z rest : text) :
  is_upper u = true → Forall (λ c, is_word uni_alnum c = true) w →
  z ≠ [] → RBRACE ∉ z →
  ∃ lens,
    exec (items (rx_struct uni_alnum)) (struct_open u w ++ z ++ CLOSE ++ rest)
    = Some lens
    ∧ sum_list lens = length (struct_open u w ++ z ++ CLOSE).
Proof.
  intros Hu Hw Hne Hz.
  assert (Hok : Forall2 item_ok (items (rx_struct uni_alnum))
            [[LBRACE]; [LBRACE]; [u]; w; [COLON]; []; z; [RBRACE]; [RBRACE]]).
  { simpl. repeat constructor; try (eexists; split; [done|done]); try done.
    by apply not_rbrace_Forall. }
  destruct (exec_complete _ _ rest Hok) as [lens He].
  assert (Hs : concat [[LBRACE]; [LBRACE]; [u]; w; [COLON]; []; z; [RBRACE];
                       [RBRACE]] ++ rest
               = struct_open u w ++ z ++ CLOSE ++ rest).
  { unfold struct_open. simpl. rewrite <- ?app_assoc. simpl.
    by rewrite <- ?app_assoc. }
  rewrite Hs in He. exists lens. split; [done|].
  destruct (exec_struct_inv _ _ He)
    as (u' & w' & z' & rest' & E & Hu' & Hw' & Hne' & Hz' & ->).
  unfold struct_open in E. rewrite <- ?app_assoc in E. simpl in E.
  injection E as -> E. rewrite <- ?app_assoc in E. simpl in E.
  apply first_split_unique in E as [-> E]; try by apply colon_not_word.
  unfold CLOSE in E. simpl in E.
  apply first_split_unique in E as [-> _]; done.
Qed.

End Rules.

Section Insertion.

Variable uni_alnum : N → bool.
Variable line_28 : text → text → text.

(** ** The rules only insert text *)

Lemma wrapped_sublist (t : text) : t `sublist_of` wrapped t.
Proof. unfold wrapped. apply sublist_inserts_l, sublist_inserts_r. done. Qed.

Lemma raw_sub_sublist rx (s : text) :
  groups rx = [(0, length (items rx))] →
  s `sublist_of` re_sub rx (expand raw_template) s.
Proof.
  intros Hg. apply re_sub_sublist. clear s. intros s lens He.
  rewrite (expand_raw_template _ _ _ Hg He). apply wrapped_sublist.
Qed.

Lemma fix_line_sublist (line : text) :
  line `sublist_of` fix_line uni_alnum line.
Proof.
  unfold fix_line. repeat case_match; try done.
  by apply raw_sub_sublist.
Qed.

Lemma rule_inline_sublist (s : text) :
  s `sublist_of` rule_inline uni_alnum s.
Proof.
  rewrite rule_inline_lines. rewrite <- (join_split_nl s) at 1.
  apply join_nl_sublist.
  induction (split_nl s) as [|l ls IH]; simpl; constructor;
    [apply fix_line_sublist | done].
Qed.

Lemma rule_actions_sublist (s : text) : s `sublist_of` rule_actions s.
Proof. by apply raw_sub_sublist. Qed.

Lemma rule_struct_sublist (s : text) :
  s `sublist_of` rule_struct uni_alnum s.
Proof. by apply raw_sub_sublist. Qed.

(** Pattern 1 keeps its input as a subsequence of its output as far as
    line 28 does. *)
Lemma rule_code_blocks_sublist (s : text) :
  (∀ tag body, fenced tag body `sublist_of` line_28 tag body) →
  s `sublist_of` rule_code_blocks uni_alnum line_28 s.
Proof.
  intros Hline. apply re_sub_sublist. clear s. intros s lens He.
  destruct (exec_fence_inv _ _ _ He) as (tag & body & rest & -> & _ & Hsum & Hobj).
  rewrite Hobj, Hsum, take_app_length, wrap_fence_obj. unfold block_result.
  destruct (_ && _); [apply Hline | done].
Qed.

Lemma later_rules_sublist (content : text) :
  content `sublist_of`
    rule_struct uni_alnum (rule_actions (rule_inline uni_alnum content)).
Proof.
  etrans; [apply rule_inline_sublist|].
  etrans; [apply rule_actions_sublist|].
  apply rule_struct_sublist.
Qed.


(** C1: a second run changes the result of the first, whatever text line
    28 returns.  A GitHub-Actions span is wrapped by the third rule on
    every run, and a struct literal by the fourth: neither rule looks for
    the raw markers that the first run put around the span. *)
Theorem second_run_wraps_again :
  let span := lit "${{ a }}" in
  let struct := lit "{{A: b}}" in
  transform uni_alnum line_28 span = wrapped span
  ∧ transform uni_alnum line_28 (transform uni_alnum line_28 span)
    = wrapped (wrapped span)
  ∧ transform uni_alnum line_28 (transform uni_alnum line_28 span)
    ≠ transform uni_alnum line_28 span
  ∧ transform uni_alnum line_28 struct = wrapped struct
  ∧ transform uni_alnum line_28 (transform uni_alnum line_28 struct)
    = wrapped (wrapped struct)
  ∧ transform uni_alnum line_28 (transform uni_alnum line_28 struct)
    ≠ transform uni_alnum line_28 struct.
Proof.
  cbv zeta. split_and!; try (vm_compute; reflexivity);
    vm_compute; discriminate.
Qed.

End Insertion.

Section Inline.

Variable uni_alnum : N → bool.

(** ** Pattern 2 on one line *)

Lemma lstrip_suffix (s : text) : ∃ a, s = a ++ lstrip s.
Proof.
  induction s as [|c s [a IH]]; simpl; [by exists []|].
  destruct (is_space c); [|by exists []].
  exists (c :: a). simpl. by f_equal.
Qed.

Lemma strip_infix (s : text) : ∃ a b, s = a ++ strip s ++ b.
Proof.
  unfold strip, rstrip. destruct (lstrip_suffix s) as [a Ha].
  destruct (lstrip_suffix (rev (lstrip s))) as [b Hb].
  exists a, (rev b). rewrite <- rev_app_distr, <- Hb, rev_involutive. done.
Qed.

Lemma strip_no_fence (line : text) :
  contains FENCE line = false → starts_with FENCE (strip line) = false.
Proof.
  intros H. apply not_true_iff_false. intros [r Hr]%starts_with_spec.
  rewrite contains_false in H. destruct (strip_infix line) as (a & b & E).
  apply (H a (r ++ b)). rewrite E at 1. rewrite Hr, <- app_assoc. done.
Qed.

(** A match of the inline pattern starts with [{{.]. *)
Lemma inline_match_has_dot (line : text) i lens :
  exec (items (rx_inline uni_alnum)) (drop i line) = Some lens →
  contains GO_DOT line = true.
Proof.
  intros (name & rest & E & _)%exec_inline_inv.
  apply contains_spec. exists (take i line), (name ++ CLOSE ++ rest).
  rewrite <- (take_drop i line) at 1. rewrite E. unfold go_token.
  by rewrite <- !app_assoc.
Qed.

Lemma fix_line_guarded (line : text) :
  contains RAW line = false → contains ENDRAW line = false →
  contains FENCE line = false →
  fix_line uni_alnum line
  = re_sub (rx_inline uni_alnum) (expand raw_template) line.
Proof.
  intros H1 H2 H3. unfold fix_line.
  rewrite H1, H2, H3, (strip_no_fence _ H3). simpl.
  destruct (contains GO_DOT line) eqn:Hd; simpl; [done|].
  symmetry. apply re_sub_clean. intros i.
  destruct (exec _ (drop i line)) eqn:He; [|done].
  apply inline_match_has_dot in He. congruence.
Qed.

Lemma lbrace_not_name (name : text) :
  Forall (λ c, is_word_or_hyphen uni_alnum c = true) name → LBRACE ∉ name.
Proof. intros H. eapply not_elem_of_Forall; [exact H|]. discriminate. Qed.

(** Text without a token is copied up to the next token. *)
Lemma re_sub_inline_plain (plain rest : text) :
  token_free uni_alnum plain →
  rest = [] ∨ (∃ r, rest = GO_DOT ++ r) →
  re_sub (rx_inline uni_alnum) (expand raw_template) (plain ++ rest)
  = plain ++ re_sub (rx_inline uni_alnum) (expand raw_template) rest.
Proof.
  intros Hfree Hrest. induction plain as [|x plain IH]; [done|].
  change ((x :: plain) ++ rest) with (x :: plain ++ rest).
  rewrite re_sub_nomatch.
  { simpl. f_equal. apply IH. intros a name b E. apply (Hfree (x :: a) name b).
    by rewrite E. }
  destruct (exec _ (x :: plain ++ rest)) as [lens|] eqn:He; [exfalso|done].
  destruct (exec_inline_inv _ _ _ He) as (name & rest' & E & Hname & _).
  change (x :: plain ++ rest) with ((x :: plain) ++ rest) in E.
  apply app_eq_inv in E as [(k & E1 & E2)|(k & E1 & E2)].
  - by apply (Hfree [] name k).
  - destruct k as [|c k].
    { rewrite app_nil_r in E1. apply (Hfree [] name []); [|done].
      by rewrite app_nil_r. }
    destruct Hrest as [->|[r ->]]; [done|].
    unfold go_token, GO_DOT, CLOSE in E1, E2. simpl in E1, E2.
    clear He IH.
    injection E2 as Hc E2. subst c. injection E1 as Hx E1. subst x.
    destruct plain as [|y plain]; simpl in E1.
    + injection E1 as E1. subst k. simpl in E2. by injection E2.
    + injection E1 as Hy E1. subst y.
      assert (Hin : LBRACE ∈ DOT :: name ++ [RBRACE; RBRACE]).
      { unfold DOT, RBRACE, LBRACE. rewrite E1. set_solver. }
      destruct Hname as [_ Hname]. apply lbrace_not_name in Hname.
      rewrite elem_of_cons, elem_of_app, !elem_of_cons in Hin.
      destruct Hin as [?|[?|[?|[?|Hin]]]]; try done.
      by apply elem_of_nil in Hin.
Qed.

(** A token is wrapped. *)
Lemma re_sub_inline_token (name rest : text) :
  is_name uni_alnum name →
  re_sub (rx_inline uni_alnum) (expand raw_template) (go_token name ++ rest)
  = wrapped (go_token name)
    ++ re_sub (rx_inline uni_alnum) (expand raw_template) rest.
Proof.
  intros Hname. destruct (exec_inline_intro uni_alnum name rest Hname)
    as (lens & He & Hsum).
  by apply (re_sub_wrap _ _ _ lens).
Qed.

Lemma re_sub_inline_weave (parts : list (text * text)) (last : text) :
  Forall (λ pn, token_free uni_alnum pn.1 ∧ is_name uni_alnum pn.2) parts →
  token_free uni_alnum last →
  re_sub (rx_inline uni_alnum) (expand raw_template) (weave id parts last)
  = weave wrapped parts last.
Proof.
  intros Hparts Hlast. induction Hparts as [|[plain name] parts [Hp Hn] _ IH].
  - simpl. rewrite <- (app_nil_r last) at 1.
    rewrite re_sub_inline_plain by auto.
    by rewrite re_sub_nil, app_nil_r.
  - simpl in Hp, Hn.
    change (weave id ((plain, name) :: parts) last)
      with (plain ++ go_token name ++ weave id parts last).
    change (weave wrapped ((plain, name) :: parts) last)
      with (plain ++ wrapped (go_token name) ++ weave wrapped parts last).
    rewrite re_sub_inline_plain; [|done|].
    + by rewrite re_sub_inline_token, IH.
    + right. unfold go_token. rewrite <- app_assoc. eauto.
Qed.

(** The substitution adds no character outside the raw markers. *)
Lemma sub_from_Forall rx repl (P : N → Prop) :
  (∀ (s : text) lens, exec (items rx) s = Some lens → Forall P s →
     Forall P (repl (match_obj rx lens s))) →
  ∀ (s : text) skip, Forall P s → Forall P (sub_from rx repl skip s).
Proof.
  intros Hrepl. induction s as [|x s IH]; intros skip Hs.
  - cbn [sub_from]. destruct skip; [|done].
    destruct (exec (items rx) []) eqn:He; [by eapply Hrepl | done].
  - inversion Hs as [|? ? Hx Hs']; subst.
    destruct skip as [|k]; cbn [sub_from]; [|by apply IH].
    destruct (exec (items rx) (x :: s)) as [lens|] eqn:He.
    + apply Forall_app. split; [by eapply Hrepl|].
      destruct (sum_list lens); [constructor; [done|]|]; by apply IH.
    + constructor; [done | by apply IH].
Qed.

Lemma fix_line_no_newline (line : text) :
  NL ∉ line → NL ∉ fix_line uni_alnum line.
Proof.
  intros Hl. unfold fix_line. repeat case_match; try done.
  assert (Hall : Forall (λ c, c ≠ NL)
                (re_sub (rx_inline uni_alnum) (expand raw_template) line)).
  { apply sub_from_Forall; [|by apply Forall_forall; intros c Hc ->].
    intros s lens He Hs.
    rewrite (expand_raw_template (rx_inline uni_alnum) _ _ eq_refl He).
    unfold wrapped. rewrite !Forall_app. split_and!.
    - unfold RAW. by repeat constructor.
    - by apply Forall_take.
    - unfold ENDRAW. by repeat constructor. }
  rewrite Forall_forall in Hall. intros Hin. by apply (Hall _ Hin).
Qed.

Lemma rule_inline_split (content : text) :
  split_nl (rule_inline uni_alnum content)
  = map (fix_line uni_alnum) (split_nl content).
Proof.
  rewrite rule_inline_lines. apply split_join_nl.
  - pose proof (split_nl_not_nil content). by destruct (split_nl content).
  - pose proof (split_nl_no_newline content) as H.
    induction H; simpl; constructor; auto using fix_line_no_newline.
Qed.

(** C4: on a line with neither raw marker and no triple backtick, the
    second rule wraps every token [{{.name}}] (name made of word
    characters and hyphens) and keeps the text between the tokens as it
    is; the other lines do not matter. *)
Theorem inline_tokens_wrapped
    (content : text) (i : nat) (parts : list (text * text)) (last : text) :
  split_nl content !! i = Some (weave id parts last) →
  Forall (λ pn, token_free uni_alnum pn.1 ∧ is_name uni_alnum pn.2) parts →
  token_free uni_alnum last →
  contains RAW (weave id parts last) = false →
  contains ENDRAW (weave id parts last) = false →
  contains FENCE (weave id parts last) = false →
  split_nl (rule_inline uni_alnum content) !! i
  = Some (weave wrapped parts last).
Proof.
  intros Hi Hparts Hlast H1 H2 H3.
  rewrite rule_inline_split, list_lookup_fmap, Hi. simpl.
  by rewrite fix_line_guarded, re_sub_inline_weave.
Qed.

(** A text without [{{.] has no token. *)
Lemma token_free_no_dot (t : text) :
  contains GO_DOT t = false → token_free uni_alnum t.
Proof.
  rewrite contains_false. intros H a name b E _.
  apply (H a (name ++ CLOSE ++ b)). rewrite E. unfold go_token.
  by rewrite <- !app_assoc.
Qed.

Lemma token_free_nil : token_free uni_alnum [].
Proof. intros a name b E _. destruct a; discriminate. Qed.

Lemma token_free_cons (x : N) (p rest : text) :
  token_free uni_alnum p →
  exec (items (rx_inline uni_alnum)) (x :: p ++ rest) = None →
  token_free uni_alnum (x :: p).
Proof.
  intros Hp He a name b E Hname. destruct a as [|y a].
  - destruct (exec_inline_intro uni_alnum name (b ++ rest) Hname)
      as (lens & He' & _).
    change (x :: p ++ rest) with ((x :: p) ++ rest) in He.
    rewrite app_nil_l in E. rewrite E, <- app_assoc in He. congruence.
  - injection E as _ E. by apply (Hp a name b).
Qed.

(** Every line can be cut into the text between its tokens and the tokens,
    so the property above speaks of every line. *)
Lemma line_has_weave (line : text) :
  ∃ parts last,
    line = weave id parts last
    ∧ Forall (λ pn, token_free uni_alnum pn.1 ∧ is_name uni_alnum pn.2) parts
    ∧ token_free uni_alnum last.
Proof.
  remember (length line) as n eqn:Hn.
  assert (Hlen : length line ≤ n) by lia. clear Hn.
  revert line Hlen. induction n as [|n IH]; intros line Hlen.
  { destruct line; [|simpl in Hlen; lia].
    exists [], []. split_and!; [done|constructor|apply token_free_nil]. }
  destruct line as [|x line].
  { exists [], []. split_and!; [done|constructor|apply token_free_nil]. }
  destruct (exec (items (rx_inline uni_alnum)) (x :: line)) as [lens|] eqn:He.
  - destruct (exec_inline_inv _ _ _ He) as (name & rest & E & Hname & _).
    destruct (IH rest) as (parts & last & -> & Hparts & Hlast).
    { apply (f_equal length) in E. rewrite length_app in E.
      unfold go_token in E. simpl in E, Hlen. lia. }
    exists (([], name) :: parts), last. split_and!; [by rewrite E| |done].
    constructor; [|done]. split; [apply token_free_nil | done].
  - destruct (IH line) as (parts & last & E & Hparts & Hlast).
    { simpl in Hlen. lia. }
    destruct parts as [|[p nm] parts].
    + simpl in E. subst line. exists [], (x :: last).
      split_and!; [done|constructor|].
      apply (token_free_cons x last []); [done|]. by rewrite app_nil_r.
    + simpl in E. inversion Hparts as [|? ? [Hp Hnm] Hparts']; subst.
      exists ((x :: p, nm) :: parts), last. split_and!; [done| |done].
      constructor; [|done]. split; [|done].
      by apply (token_free_cons x p (id (go_token nm) ++ weave id parts last)).
Qed.

End Inline.

(** ** Patterns 3 and 4: an opening, text without closing brace, [}}] *)

Section BraceSpan.

Variable rx : regex.
Variable opener : text → Prop.

Hypothesis rx_groups : groups rx = [(0, length (items rx))].

Hypothesis rx_inv : ∀ (s : text) lens,
  exec (items rx) s = Some lens →
  ∃ o z rest,
    s = o ++ z ++ CLOSE ++ rest ∧ opener o ∧ z ≠ [] ∧ (RBRACE ∉ z)
    ∧ sum_list lens = length (o ++ z ++ CLOSE).

Hypothesis rx_intro : ∀ (o z rest : text),
  opener o → z ≠ [] → RBRACE ∉ z →
  ∃ lens,
    exec (items rx) (o ++ z ++ CLOSE ++ rest) = Some lens
    ∧ sum_list lens = length (o ++ z ++ CLOSE).

Hypothesis opener_head : ∀ o, opener o → ∃ c t, o = c :: t ∧ c ≠ RBRACE.

(** A proper end of an opening is not the start of one. *)
Hypothesis opener_overlap : ∀ (o o' a b t t' : text),
  opener o → opener o' → o = a ++ b → a ≠ [] → b ≠ [] → b ++ t ≠ o' ++ t'.

Local Abbreviation sub := (re_sub rx (expand raw_template)).
Local Abbreviation closed := (closed_before opener).

Lemma brace_sub_nil : sub [] = [].
Proof.
  apply re_sub_nil. destruct (exec (items rx) []) as [lens|] eqn:He; [|done].
  destruct (rx_inv _ _ He) as (o & z & rest & E & Ho & _).
  destruct (opener_head _ Ho) as (c & t & -> & _). done.
Qed.

Lemma brace_sub_span (o z rest : text) :
  opener o → z ≠ [] → RBRACE ∉ z →
  sub ((o ++ z ++ CLOSE) ++ rest) = wrapped (o ++ z ++ CLOSE) ++ sub rest.
Proof.
  intros Ho Hz Hz'. destruct (rx_intro o z rest Ho Hz Hz') as (lens & He & Hs).
  apply (re_sub_wrap _ _ _ lens); try done.
  - by rewrite <- !app_assoc.
  - destruct (opener_head _ Ho) as (c & t & -> & _). done.
Qed.

Lemma closed_suffix (a b : text) : closed (a ++ b) → closed b.
Proof.
  intros H p1 o p2 E Ho. apply (H (a ++ p1) o p2); [|done].
  by rewrite E, <- app_assoc.
Qed.

(** The scan of closed text ends at its end. *)
Lemma brace_sub_app (n : nat) (pre o' t' : text) :
  length pre ≤ n → closed pre → opener o' →
  sub (pre ++ o' ++ t') = sub pre ++ sub (o' ++ t').
Proof.
  revert pre. induction n as [|n IH]; intros pre Hlen Hpre Ho'.
  { destruct pre; [|simpl in Hlen; lia]. by rewrite brace_sub_nil. }
  destruct pre as [|x pre]; [by rewrite brace_sub_nil|].
  destruct (exec (items rx) ((x :: pre) ++ o' ++ t')) as [lens|] eqn:He.
  - destruct (rx_inv _ _ He) as (o & z & r & E & Ho & Hz & Hz' & Hsum).
    assert (∃ k, x :: pre = o ++ k ∧ z ++ CLOSE ++ r = k ++ o' ++ t')
      as (k & E1 & E2).
    { apply app_eq_inv in E as [(k & E1 & E2)|(k & E1 & E2)]; [by exists k|].
      destruct k as [|c k].
      - exists []. rewrite app_nil_r in E1. rewrite E1, app_nil_r. done.
      - exfalso.
        by apply (opener_overlap o o' (x :: pre) (c :: k) (z ++ CLOSE ++ r) t'). }
    assert (Hk : RBRACE ∈ k) by (by apply (Hpre [] o k)).
    apply list_elem_of_split_l in Hk as (k1 & k2 & -> & Hk1).
    unfold CLOSE in E2. cbn [app] in E2. rewrite <- app_assoc in E2.
    cbn [app] in E2.
    apply first_split_unique in E2 as [-> E2]; [|done|done].
    destruct (opener_head _ Ho') as (c' & o'' & -> & Hc').
    destruct k2 as [|c2 k3]; simpl in E2;
      [injection E2 as E2 _; by destruct Hc'|].
    injection E2 as Hc2 E2. subst c2.
    assert (Epre : x :: pre = (o ++ k1 ++ CLOSE) ++ k3).
    { rewrite E1. unfold CLOSE. rewrite <- !app_assoc. done. }
    rewrite Epre, <- (app_assoc _ k3).
    rewrite !brace_sub_span by done. rewrite <- app_assoc. f_equal.
    apply IH; [| |done].
    + apply (f_equal length) in Epre. rewrite !length_app in Epre.
      simpl in Epre, Hlen. lia.
    + apply (closed_suffix (o ++ k1 ++ CLOSE)). by rewrite <- Epre.
  - assert (He' : exec (items rx) (x :: pre) = None).
    { destruct (exec (items rx) (x :: pre)) as [lens|] eqn:He'; [|done].
      destruct (rx_inv _ _ He') as (o & z & r & E & Ho & Hz & Hz' & _).
      destruct (rx_intro o z (r ++ o' ++ t') Ho Hz Hz') as (l2 & He2 & _).
      rewrite E, <- !app_assoc in He. congruence. }
    change ((x :: pre) ++ o' ++ t') with (x :: pre ++ o' ++ t') in *.
    rewrite !re_sub_nomatch by done. simpl. f_equal.
    apply IH; [simpl in Hlen; lia| |done].
    by apply (closed_suffix [x]).
Qed.

(** A span whose opening is not inside an earlier open span is wrapped,
    and the text on both sides is treated on its own. *)
Lemma brace_span_wrapped (pre o z post : text) :
  closed pre → opener o → z ≠ [] → RBRACE ∉ z →
  sub (pre ++ (o ++ z ++ CLOSE) ++ post)
  = sub pre ++ wrapped (o ++ z ++ CLOSE) ++ sub post.
Proof.
  intros Hpre Ho Hz Hz'.
  rewrite <- (brace_sub_span o z post) by done.
  rewrite <- !app_assoc.
  by apply (brace_sub_app (length pre)).
Qed.

End BraceSpan.

Section Spans.

Variable uni_alnum : N → bool.

Lemma actions_rx_inv (s : text) lens :
  exec (items rx_actions) s = Some lens →
  ∃ o z rest,
    s = o ++ z ++ CLOSE ++ rest ∧ actions_opener o ∧ z ≠ [] ∧ (RBRACE ∉ z)
    ∧ sum_list lens = length (o ++ z ++ CLOSE).
Proof.
  intros (x & rest & -> & Hx & Hx' & Hsum)%exec_actions_inv.
  exists ACTIONS_OPEN, x, rest. unfold actions_span in *.
  rewrite <- !app_assoc. done.
Qed.

Lemma actions_rx_intro (o z rest : text) :
  actions_opener o → z ≠ [] → RBRACE ∉ z →
  ∃ lens,
    exec (items rx_actions) (o ++ z ++ CLOSE ++ rest) = Some lens
    ∧ sum_list lens = length (o ++ z ++ CLOSE).
Proof.
  intros -> Hz Hz'. destruct (exec_actions_intro z rest Hz Hz') as (l & He & Hs).
  exists l. unfold actions_span in *. rewrite <- !app_assoc in He. done.
Qed.

Lemma actions_opener_head o :
  actions_opener o → ∃ c t, o = c :: t ∧ c ≠ RBRACE.
Proof. intros ->. by exists DOLLAR, [LBRACE; LBRACE]. Qed.

Lemma actions_opener_overlap (o o' a b t t' : text) :
  actions_opener o → actions_opener o' → o = a ++ b → a ≠ [] → b ≠ [] →
  b ++ t ≠ o' ++ t'.
Proof.
  intros -> -> E Ha Hb E'. unfold ACTIONS_OPEN in *.
  destruct a as [|x a]; [done|]. injection E as _ E.
  destruct b as [|y b]; [done|]. simpl in E'. injection E' as -> _.
  assert (Hin : 36%N ∈ a ++ 36%N :: b) by (apply elem_of_app; right; left).
  rewrite <- E in Hin.
  apply elem_of_cons in Hin as [?|Hin]; [done|].
  apply elem_of_cons in Hin as [?|Hin]; [done|].
  by apply elem_of_nil in Hin.
Qed.

Lemma struct_rx_inv (s : text) lens :
  exec (items (rx_struct uni_alnum)) s = Some lens →
  ∃ o z rest,
    s = o ++ z ++ CLOSE ++ rest ∧ struct_opener uni_alnum o ∧ z ≠ []
    ∧ (RBRACE ∉ z) ∧ sum_list lens = length (o ++ z ++ CLOSE).
Proof.
  intros (u & w & z & rest & -> & Hu & Hw & Hz & Hz' & Hsum)%exec_struct_inv.
  exists (struct_open u w), z, rest. split_and!; try done. by exists u, w.
Qed.

Lemma struct_rx_intro (o z rest : text) :
  struct_opener uni_alnum o → z ≠ [] → RBRACE ∉ z →
  ∃ lens,
    exec (items (rx_struct uni_alnum)) (o ++ z ++ CLOSE ++ rest) = Some lens
    ∧ sum_list lens = length (o ++ z ++ CLOSE).
Proof.
  intros (u & w & -> & Hu & Hw) Hz Hz'. by apply exec_struct_intro.
Qed.

Lemma struct_opener_head o :
  struct_opener uni_alnum o → ∃ c t, o = c :: t ∧ c ≠ RBRACE.
Proof.
  intros (u & w & -> & _). by exists LBRACE, (LBRACE :: u :: w ++ [COLON]).
Qed.

Lemma lbrace_not_word (w : text) :
  Forall (λ c, is_word uni_alnum c = true) w → LBRACE ∉ w.
Proof. intros H. eapply not_elem_of_Forall; [exact H|]. discriminate. Qed.

Lemma struct_opener_overlap (o o' a b t t' : text) :
  struct_opener uni_alnum o → struct_opener uni_alnum o' →
  o = a ++ b → a ≠ [] → b ≠ [] → b ++ t ≠ o' ++ t'.
Proof.
  intros (u & w & -> & Hu & Hw) (u' & w' & -> & Hu' & Hw') E Ha Hb E'.
  unfold struct_open, BRACES_OPEN in *. simpl in E, E'.
  destruct b as [|y b]; [done|]. simpl in E'. injection E' as -> E'.
  destruct a as [|x a]; [done|]. simpl in E. injection E as _ E.
  destruct a as [|x' a]; simpl in E.
  - injection E as E. subst b. simpl in E'. injection E' as -> _.
    discriminate.
  - injection E as _ E.
    assert (Hin : 123%N ∈ u :: w ++ [COLON])
      by (rewrite E; apply elem_of_app; right; left).
    apply lbrace_not_word in Hw.
    rewrite elem_of_cons, elem_of_app, elem_of_cons, elem_of_nil in Hin.
    destruct Hin as [<-|[?|[?|?]]]; done.
Qed.

(** C5, for spans that do not lie inside an earlier open span: a span
    [${{ X }}] with X not empty and free of closing braces is replaced by
    the same span between the raw markers, when every [${{] before it is
    followed by a closing brace before it; the text before and after the
    span is treated on its own. *)
Theorem actions_span_wrapped (pre x post : text) :
  x ≠ [] → RBRACE ∉ x →
  (∀ p1 p2, pre = p1 ++ ACTIONS_OPEN ++ p2 → RBRACE ∈ p2) →
  rule_actions (pre ++ actions_span x ++ post)
  = rule_actions pre ++ wrapped (actions_span x) ++ rule_actions post.
Proof.
  intros Hx Hx' Hpre. unfold rule_actions, actions_span.
  apply (brace_span_wrapped rx_actions actions_opener eq_refl
           actions_rx_inv actions_rx_intro actions_opener_head
           actions_opener_overlap); try done.
  intros p1 o p2 E ->. by apply (Hpre p1).
Qed.

(** C6, for spans that do not lie inside an earlier open span: a span
    [{{Identifier: value}}] (Identifier an upper-case letter A-Z and word
    characters, value not empty and free of closing braces) is replaced by
    the same span between the raw markers, when every [{{Identifier:]
    before it is followed by a closing brace before it; the text before and
    after the span is treated on its own. *)
Theorem struct_span_wrapped (pre : text) (u : N) (w v post : text) :
  is_upper u = true → Forall (λ c, is_word uni_alnum c = true) w →
  v ≠ [] → RBRACE ∉ v →
  (∀ p1 u' w' p2,
     pre = p1 ++ struct_open u' w' ++ p2 → is_upper u' = true →
     Forall (λ c, is_word uni_alnum c = true) w' → RBRACE ∈ p2) →
  rule_struct uni_alnum (pre ++ struct_span u w v ++ post)
  = rule_struct uni_alnum pre ++ wrapped (struct_span u w v)
    ++ rule_struct uni_alnum post.
Proof.
  intros Hu Hw Hv Hv' Hpre. unfold rule_struct, struct_span.
  change (struct_open u w ++ SPACE :: v ++ CLOSE)
    with (struct_open u w ++ (SPACE :: v) ++ CLOSE).
  apply (brace_span_wrapped (rx_struct uni_alnum) (struct_opener uni_alnum)
           eq_refl struct_rx_inv struct_rx_intro struct_opener_head
           struct_opener_overlap); try done.
  - intros p1 o p2 E (u' & w' & -> & Hu' & Hw'). by apply (Hpre p1 u' w').
  - by exists u, w.
  - rewrite not_elem_of_cons. done.
Qed.

End Spans.

Section CodeBlocks.

Variable uni_alnum : N → bool.
Variable line_28 : text → text → text.

(** ** Pattern 1 on a document *)





Lemma backtick_not_word : is_word uni_alnum BACKTICK = false.
Proof. reflexivity. Qed.






(** No match of the fence pattern starts in a text in which no opening
    fence has a triple backtick after it. *)
Lemma unclosed_no_match (s : text) :
  (∀ a tag rest,
     s = a ++ FENCE ++ tag ++ NL :: rest →
     Forall (λ c, is_word uni_alnum c = true) tag →
     contains FENCE rest = false) →
  exec (items (rx_fence uni_alnum)) s = None.
Proof.
  intros H. destruct (exec _ s) as [lens|] eqn:He; [exfalso|done].
  destruct (exec_fence_inv _ _ _ He) as (tag & body & rest & -> & Htag & _).
  specialize (H [] tag (body ++ FENCE ++ rest)).
  rewrite contains_false in H.
  apply (H ltac:(unfold fenced; by norm_app) Htag body rest eq_refl).
Qed.

Lemma unclosed_scan repl (s : text) :
  (∀ a tag rest,
     s = a ++ FENCE ++ tag ++ NL :: rest →
     Forall (λ c, is_word uni_alnum c = true) tag →
     contains FENCE rest = false) →
  re_sub (rx_fence uni_alnum) repl s = s.
Proof.
  induction s as [|x s IH]; intros H.
  - by apply re_sub_nil.
  - rewrite re_sub_nomatch by by apply unclosed_no_match.
    f_equal. apply IH. intros a tag rest -> Htag.
    by apply (H (x :: a) tag rest).
Qed.

End CodeBlocks.

(** * Examples and counterexamples *)

Lemma no_actions_open_closed (pre : text) :
  contains ACTIONS_OPEN pre = false →
  ∀ p1 p2, pre = p1 ++ ACTIONS_OPEN ++ p2 → RBRACE ∈ p2.
Proof. rewrite contains_false. intros H p1 p2 E. by destruct (H p1 p2). Qed.

Lemma no_braces_open_closed (uni_alnum : N → bool) (pre : text) :
  contains BRACES_OPEN pre = false →
  ∀ p1 u' w' p2,
    pre = p1 ++ struct_open u' w' ++ p2 → is_upper u' = true →
    Forall (λ c, is_word uni_alnum c = true) w' → RBRACE ∈ p2.
Proof.
  rewrite contains_false. intros H p1 u' w' p2 E _ _.
  destruct (H p1 (u' :: w' ++ [COLON] ++ p2)). rewrite E.
  unfold struct_open. by norm_app.
Qed.

Lemma not_infix (p s a b : text) : contains p s = false → s ≠ a ++ p ++ b.
Proof. rewrite contains_false. auto. Qed.

(** C2 at a file with one GitHub-Actions span: it is rewritten. *)
Lemma fix_file_all_or_nothing_witness :
  let path := lit "a.md" in
  let fs : store := {[ path := plain_file (lit "url: ${{ secrets.TOKEN }}") ]} in
  fix_file ascii_only example_line_28 path fs
  = Done true
      (<[path := plain_file (lit "url: {% raw %}${{ secrets.TOKEN }}{% endraw %}")]> fs)
      [EvRead path;
       EvWrite path (lit "url: {% raw %}${{ secrets.TOKEN }}{% endraw %}")].
Proof.
  intros path fs.
  destruct (fix_file_all_or_nothing ascii_only example_line_28 path
              (lit "url: ${{ secrets.TOKEN }}") fs (lookup_singleton_eq _ _))
    as [[E _]|[_ E]].
  - vm_compute in E. discriminate.
  - exact E.
Defined.

(** C7 on a store that holds the first listed file only: the second is
    missing, and the run goes on to the third. *)
Lemma missing_file_is_skipped_witness :
  let first := path_join example_docs_dir (lit "concepts/templates.md") in
  let second := path_join example_docs_dir (lit "concepts/prompts.md") in
  let fs : store := {[ first := plain_file (lit "Plain text.") ]} in
  main ascii_only example_docs_dir example_line_28 utf8_console fs
  = prepend
      [EvExists first true;
       EvPrint (lit "Processing concepts/templates.md...");
       EvRead first;
       EvPrint (lit "  - No changes needed");
       EvExists second false;
       EvPrint (lit "  " ++ 10007%N
                :: lit " File not found: /repo/docs/concepts/prompts.md")]
      (and_then
         (process_files ascii_only example_docs_dir example_line_28
            utf8_console (drop 2 files_to_fix) 0 fs)
         (λ n, print utf8_console (msg_summary n))).
Proof.
  intros first second fs.
  assert (fs !! second = None) as Hmissing
    by (apply lookup_singleton_ne; discriminate).
  assert (process_files ascii_only example_docs_dir example_line_28
            utf8_console [lit "concepts/templates.md"] 0 fs
          = Done 0 fs
              [EvExists first true;
               EvPrint (lit "Processing concepts/templates.md...");
               EvRead first;
               EvPrint (lit "  - No changes needed")]) as Hbefore.
  { rewrite process_files_cons. cbv zeta. fold first.
    unfold fs at 1. rewrite lookup_singleton_eq.
    rewrite fix_file_run. unfold fs at 1. rewrite lookup_singleton_eq.
    reflexivity. }
  exact (proj1 (missing_file_is_skipped ascii_only example_docs_dir
                  example_line_28 utf8_console
                  [lit "concepts/templates.md"] (drop 2 files_to_fix)
                  (lit "concepts/prompts.md") fs fs 0 _
                  eq_refl Hmissing eq_refl Hbefore)).
Defined.

(** C4 at the line [Output: "Hello, {{.name}}!"]. *)
Lemma inline_tokens_wrapped_witness :
  split_nl (rule_inline ascii_only
              (hello_before ++ go_token hello_name ++ hello_after)) !! 0
  = Some (hello_before ++ wrapped (go_token hello_name) ++ hello_after).
Proof.
  apply (inline_tokens_wrapped ascii_only
           (hello_before ++ go_token hello_name ++ hello_after) 0
           [(hello_before, hello_name)] hello_after).
  - reflexivity.
  - constructor; [|constructor]. split.
    + apply token_free_no_dot. reflexivity.
    + split; [discriminate|]. repeat constructor.
  - apply token_free_no_dot. reflexivity.
  - reflexivity.
  - reflexivity.
  - reflexivity.
Defined.

(** C5 at [url: ${{ secrets.TOKEN }}]. *)
Lemma actions_span_wrapped_witness :
  rule_actions (lit "url: ${{ secrets.TOKEN }}")
  = lit "url: {% raw %}${{ secrets.TOKEN }}{% endraw %}".
Proof.
  apply (actions_span_wrapped (lit "url: ") (lit " secrets.TOKEN ") []).
  - discriminate.
  - compute_done.
  - apply no_actions_open_closed. reflexivity.
Defined.

(** C6 at [cfg := {{Name: value}}]. *)
Lemma struct_span_wrapped_witness :
  rule_struct ascii_only (lit "cfg := {{Name: value}}")
  = lit "cfg := {% raw %}{{Name: value}}{% endraw %}".
Proof.
  apply (struct_span_wrapped ascii_only (lit "cfg := ") 78 (lit "ame")
           (lit "value") []).
  - reflexivity.
  - repeat constructor.
  - discriminate.
  - compute_done.
  - apply no_braces_open_closed. reflexivity.
Defined.



(** C5 as stated fails: the span [${{ b }}] lies inside the match that
    starts at the earlier [${{], and only that match is wrapped. *)
Lemma actions_claim_fails :
  ¬ actions_claim (lit "${{ a ") (lit " b ") [].
Proof.
  intros H. destruct H as (pre' & post' & E).
  - discriminate.
  - compute_done.
  - revert E. apply not_infix. vm_compute. reflexivity.
Qed.

(** C6 as stated fails in the same way for [{{B: c}}] after [{{A: ]. *)
Lemma struct_claim_fails :
  ¬ ∃ uni_alnum, struct_claim uni_alnum (lit "{{A: ") 66 [] (lit "c") [].
Proof.
  intros (ua & H). destruct H as (pre' & post' & E).
  - reflexivity.
  - constructor.
  - discriminate.
  - compute_done.
  - revert E. apply not_infix. vm_compute. reflexivity.
Qed.

(** * Further properties of the rules and of the run *)

(** ** Text in which a pattern cannot start *)

(** A pattern whose matches all start with [p] leaves a text without [p]
    as it is. *)
Lemma re_sub_no_prefix rx repl (p s : text) :
  (∀ (t : text) lens, exec (items rx) t = Some lens → ∃ r, t = p ++ r) →
  contains p s = false → re_sub rx repl s = s.
Proof.
  intros Hp Hs. apply re_sub_clean. intros i.
  destruct (exec (items rx) (drop i s)) as [lens|] eqn:He; [exfalso|done].
  destruct (Hp _ _ He) as [r Hr]. rewrite contains_false in Hs.
  apply (Hs (take i s) r). rewrite <- Hr. by rewrite take_drop.
Qed.

Lemma contains_trans (p q s : text) :
  contains p q = true → contains q s = true → contains p s = true.
Proof.
  rewrite !contains_spec. intros (a & b & ->) (a' & b' & ->).
  exists (a' ++ a), (b ++ b'). by rewrite <- !app_assoc.
Qed.

Lemma contains_none (p q s : text) :
  contains p q = true → contains p s = false → contains q s = false.
Proof.
  intros Hpq Hs. destruct (contains q s) eqn:Hq; [|done].
  by rewrite (contains_trans p q s Hpq Hq) in Hs.
Qed.

(** A text that does not occur in a document occurs in none of its
    lines. *)
Lemma contains_join_nl (p : text) (ls : list text) :
  contains p (join_nl ls) = false → Forall (λ l, contains p l = false) ls.
Proof.
  induction ls as [|l ls IH]; intros H; [constructor|].
  destruct ls as [|l' ls]; [by repeat constructor|].
  change (join_nl (l :: l' :: ls)) with (l ++ NL :: join_nl (l' :: ls)) in H.
  constructor.
  - by apply (contains_app_l p l) in H.
  - apply IH. apply (contains_app_r p l) in H.
    by apply (contains_app_r p [NL]) in H.
Qed.

Lemma contains_split_nl (p s : text) :
  contains p s = false → Forall (λ l, contains p l = false) (split_nl s).
Proof. intros H. apply contains_join_nl. by rewrite join_split_nl. Qed.

Section FixedPoints.

Variable uni_alnum : N → bool.
Variable line_28 : text → text → text.

Lemma fix_line_no_dot (line : text) :
  contains GO_DOT line = false → fix_line uni_alnum line = line.
Proof. intros H. unfold fix_line. rewrite H. by repeat case_match. Qed.

(** Whatever the callback does, the substitution of pattern 1 leaves a text
    without a triple backtick as it is. *)
Lemma fence_sub_no_fence repl (s : text) :
  contains FENCE s = false → re_sub (rx_fence uni_alnum) repl s = s.
Proof.
  apply re_sub_no_prefix. intros t lens He.
  destruct (exec_fence_inv _ _ _ He) as (tag & body & rest & -> & _).
  unfold fenced. rewrite <- !app_assoc. eauto.
Qed.

Lemma rule_code_blocks_no_fence (s : text) :
  contains FENCE s = false → rule_code_blocks uni_alnum line_28 s = s.
Proof. apply fence_sub_no_fence. Qed.

Lemma rule_inline_no_dot (s : text) :
  contains GO_DOT s = false → rule_inline uni_alnum s = s.
Proof.
  intros H. rewrite rule_inline_lines. rewrite <- (join_split_nl s) at 2.
  f_equal. apply contains_split_nl in H.
  induction H as [|l ls Hl Hls IH]; simpl; [done|].
  by rewrite fix_line_no_dot, IH.
Qed.

Lemma rule_actions_no_open (s : text) :
  contains ACTIONS_OPEN s = false → rule_actions s = s.
Proof.
  apply re_sub_no_prefix. intros t lens He.
  destruct (exec_actions_inv _ _ He) as (x & rest & -> & _).
  unfold actions_span. rewrite <- !app_assoc. eauto.
Qed.

Lemma rule_struct_no_open (s : text) :
  contains BRACES_OPEN s = false → rule_struct uni_alnum s = s.
Proof.
  apply re_sub_no_prefix. intros t lens He.
  destruct (exec_struct_inv _ _ _ He) as (u & w & z & rest & -> & _).
  unfold struct_open. rewrite <- !app_assoc. eauto.
Qed.

(** X1: a readable file whose text has no triple backtick and no double
    opening brace is a fixed point of each of the four rules; fix_file
    reads it, writes nothing and returns False, whether or not the file
    can be written and whatever text line 28 returns. *)
Theorem pattern_free_file_untouched
    (filepath stored : text) (writable : bool) (fs : store) :
  fs !! filepath = Some (Regular true (Some stored) writable) →
  contains FENCE (universal_newlines stored) = false →
  contains BRACES_OPEN (universal_newlines stored) = false →
  let content := universal_newlines stored in
  rule_code_blocks uni_alnum line_28 content = content
  ∧ rule_inline uni_alnum content = content
  ∧ rule_actions content = content
  ∧ rule_struct uni_alnum content = content
  ∧ fix_file uni_alnum line_28 filepath fs = Done false fs [EvRead filepath].
Proof.
  intros Hfs Hfence Hbraces content. fold content in Hfence, Hbraces.
  assert (H1 : rule_code_blocks uni_alnum line_28 content = content)
    by by apply rule_code_blocks_no_fence.
  assert (H2 : rule_inline uni_alnum content = content).
  { apply rule_inline_no_dot.
    apply (contains_none BRACES_OPEN GO_DOT); [reflexivity|done]. }
  assert (H3 : rule_actions content = content).
  { apply rule_actions_no_open.
    apply (contains_none BRACES_OPEN ACTIONS_OPEN); [reflexivity|done]. }
  assert (H4 : rule_struct uni_alnum content = content)
    by by apply rule_struct_no_open.
  split_and!; try done.
  rewrite fix_file_run, Hfs. cbv zeta. fold content.
  unfold transform. rewrite H1, H2, H3, H4.
  by rewrite bool_decide_eq_false_2 by (by intros []).
Qed.

End FixedPoints.

(** ** The inline pass, line by line *)

Lemma contains_prefix (p r : text) : contains p (p ++ r) = true.
Proof. apply contains_spec. by exists [], r. Qed.

Lemma contains_cons (p : text) (x : N) (s : text) :
  contains p s = true → contains p (x :: s) = true.
Proof.
  rewrite !contains_spec. intros (a & b & ->). by exists (x :: a), b.
Qed.

(** A substitution with the raw template changes nothing or leaves a raw
    marker in its result. *)
Lemma sub_from_same_or_raw rx :
  groups rx = [(0, length (items rx))] →
  ∀ (s : text) skip,
    sub_from rx (expand raw_template) skip s = drop skip s
    ∨ contains RAW (sub_from rx (expand raw_template) skip s) = true.
Proof.
  intros Hg. induction s as [|x s IH]; intros skip.
  - destruct skip as [|k]; cbn [sub_from]; [|by left].
    destruct (exec (items rx) []) as [lens|] eqn:He; [right|by left].
    rewrite (expand_raw_template _ _ _ Hg He). unfold wrapped.
    apply contains_prefix.
  - destruct skip as [|k]; cbn [sub_from]; [|apply IH].
    destruct (exec (items rx) (x :: s)) as [lens|] eqn:He.
    + right. rewrite (expand_raw_template _ _ _ Hg He). unfold wrapped.
      rewrite <- app_assoc. apply contains_prefix.
    + destruct (IH 0) as [E|E].
      * left. rewrite E. by rewrite !drop_0.
      * right. by apply contains_cons.
Qed.

Lemma split_nl_app (a b : text) :
  split_nl (a ++ NL :: b) = split_nl a ++ split_nl b.
Proof.
  induction a as [|c a IH]; simpl; [done|].
  destruct (N.eqb c NL); [by rewrite IH|].
  rewrite IH. destruct (split_nl a) as [|l ls] eqn:E;
    [by destruct (split_nl_not_nil a)|]. done.
Qed.

Lemma join_nl_app (l1 l2 : list text) :
  l1 ≠ [] → l2 ≠ [] → join_nl (l1 ++ l2) = join_nl l1 ++ NL :: join_nl l2.
Proof.
  intros H1 H2. induction l1 as [|l l1 IH]; [done|].
  destruct l1 as [|l' l1].
  - simpl. by destruct l2.
  - change (join_nl ((l :: l' :: l1) ++ l2))
      with (l ++ NL :: join_nl ((l' :: l1) ++ l2)).
    rewrite IH by done. simpl. by rewrite <- app_assoc.
Qed.

Section InlinePass.

Variable uni_alnum : N → bool.

Lemma fix_line_idempotent (line : text) :
  fix_line uni_alnum (fix_line uni_alnum line) = fix_line uni_alnum line.
Proof.
  unfold fix_line at 2.
  destruct (contains RAW line || contains ENDRAW line
            || starts_with FENCE (strip line)) eqn:Hskip.
  { unfold fix_line. by rewrite Hskip. }
  destruct (contains GO_DOT line && negb (contains FENCE line)) eqn:Hdot.
  2:{ unfold fix_line. by rewrite Hskip, Hdot. }
  destruct (sub_from_same_or_raw (rx_inline uni_alnum) eq_refl line 0)
    as [E|E]; fold (re_sub (rx_inline uni_alnum) (expand raw_template) line)
    in E.
  - rewrite drop_0 in E. rewrite E. unfold fix_line.
    by rewrite Hskip, Hdot.
  - unfold fix_line. by rewrite E, Hskip, Hdot.
Qed.

(** X2: the inline pass is idempotent: a line it has wrapped holds a raw
    marker and is skipped the next time. *)
Theorem rule_inline_idempotent (content : text) :
  rule_inline uni_alnum (rule_inline uni_alnum content)
  = rule_inline uni_alnum content.
Proof.
  rewrite (rule_inline_lines uni_alnum (rule_inline uni_alnum content)).
  rewrite rule_inline_split, rule_inline_lines. f_equal.
  rewrite <- list_fmap_compose. apply list_fmap_ext.
  intros i l _. apply fix_line_idempotent.
Qed.

(** X3: the inline pass keeps the number of lines of every text, and a
    line with a raw or endraw marker, with a triple backtick, or without
    [{{.] stays as it is at its place. *)
Theorem inline_guarded_lines_kept (content : text) :
  length (split_nl (rule_inline uni_alnum content))
  = length (split_nl content)
  ∧ ∀ (i : nat) (line : text),
      split_nl content !! i = Some line →
      contains RAW line = true ∨ contains ENDRAW line = true
      ∨ contains FENCE line = true ∨ contains GO_DOT line = false →
      split_nl (rule_inline uni_alnum content) !! i = Some line.
Proof.
  rewrite rule_inline_split, length_fmap. split; [done|].
  intros i line Hi Hline.
  rewrite list_lookup_fmap, Hi. simpl. f_equal. unfold fix_line.
  destruct Hline as [->|[->|[H|H]]]; rewrite ?orb_true_r; try done.
  - rewrite H, andb_false_r. by case_match.
  - rewrite H. by case_match.
Qed.

(** X4: the inline pass treats the lines apart: the result for two texts
    joined by a newline is the two results joined by a newline. *)
Theorem rule_inline_line_local (a b : text) :
  rule_inline uni_alnum (a ++ NL :: b)
  = rule_inline uni_alnum a ++ NL :: rule_inline uni_alnum b.
Proof.
  rewrite !rule_inline_lines, split_nl_app, fmap_app.
  apply join_nl_app.
  - pose proof (split_nl_not_nil a). by destruct (split_nl a).
  - pose proof (split_nl_not_nil b). by destruct (split_nl b).
Qed.

(** One turn of the loop, with its change note. *)
Lemma inline_step_middle (pre rest : list text) (line : text) changes :
  inline_step uni_alnum (length pre) line (pre ++ line :: rest, changes)
  = (pre ++ fix_line uni_alnum line :: rest,
     changes ++ (if decide (fix_line uni_alnum line = line) then []
                 else [change_note (length pre)])).
Proof.
  unfold inline_step, fix_line. cbn [fst snd].
  destruct (_ || _ || _).
  { rewrite decide_True by done. by rewrite app_nil_r. }
  destruct (_ && _).
  2:{ rewrite decide_True by done. by rewrite app_nil_r. }
  rewrite insert_app_r_alt by lia. rewrite Nat.sub_diag. cbn [insert list_insert].
  rewrite list_lookup_middle by done.
  case_bool_decide as Hd.
  - injection Hd as Hd. rewrite decide_True by done. by rewrite app_nil_r.
  - rewrite decide_False; [done|]. intros E. apply Hd. by rewrite E.
Qed.

Lemma inline_loop_full (rest pre : list text) changes :
  inline_loop uni_alnum (length rest) (length pre) (pre ++ rest, changes)
  = (pre ++ map (fix_line uni_alnum) rest,
     changes ++ map change_note
                  (modified_from (length pre) rest
                     (map (fix_line uni_alnum) rest))).
Proof.
  revert pre changes.
  induction rest as [|line rest IH]; intros pre changes; simpl.
  { by rewrite !app_nil_r. }
  rewrite list_lookup_middle by done. rewrite inline_step_middle.
  replace (S (length pre)) with (length (pre ++ [fix_line uni_alnum line]))
    by (rewrite length_app; simpl; lia).
  rewrite (cons_middle _ pre rest), app_assoc, IH, <- !app_assoc.
  rewrite fmap_app. by destruct (decide _).
Qed.

(** X5: the change list holds, in line order, one note for each line the
    pass modified, with the line's number counted from 1, and no other. *)
Theorem change_notes_exact (content : text) :
  (inline_pass uni_alnum content).2
  = map change_note
      (modified_lines (split_nl content) (inline_pass uni_alnum content).1).
Proof.
  unfold inline_pass, modified_lines.
  pose proof (inline_loop_full (split_nl content) [] []) as H.
  simpl in H. by rewrite H.
Qed.

End InlinePass.

(** ** The characters of the result *)

Lemma join_nl_Forall (P : N → Prop) (ls : list text) :
  P NL → Forall (Forall P) ls → Forall P (join_nl ls).
Proof.
  intros HP. induction 1 as [|l ls Hl Hls IH]; [constructor|].
  destruct ls as [|l' ls]; [done|].
  change (join_nl (l :: l' :: ls)) with (l ++ NL :: join_nl (l' :: ls)).
  apply Forall_app. split; [done|]. by constructor.
Qed.

Lemma split_nl_Forall (P : N → Prop) (s : text) :
  Forall P s → Forall (Forall P) (split_nl s).
Proof.
  induction 1 as [|c s Hc Hs IH]; simpl; [by repeat constructor|].
  destruct (N.eqb c NL); [by constructor|].
  destruct (split_nl s) as [|l ls]; [by repeat constructor|].
  inversion IH; subst. constructor; [by constructor|done].
Qed.

Lemma universal_newlines_no_cr (s : text) :
  Forall (λ c, c ≠ CR) (universal_newlines s).
Proof.
  remember (length s) as n eqn:Hn.
  assert (Hlen : length s ≤ n) by lia. clear Hn.
  revert s Hlen. induction n as [|n IH]; intros s Hlen.
  { destruct s; [constructor|simpl in Hlen; lia]. }
  destruct s as [|c s]; [constructor|]. simpl in Hlen. simpl.
  destruct (N.eqb_spec c 13) as [->|Hc].
  - destruct s as [|d s]; [by repeat constructor|].
    destruct (N.eqb d 10); constructor; try done; apply IH; simpl in *; lia.
  - constructor; [done|]. apply IH. lia.
Qed.

Section Characters.

Variable uni_alnum : N → bool.
Variable P : N → Prop.

Hypothesis P_markers : Forall P marker_text.

Lemma P_raw : Forall P RAW.
Proof. unfold marker_text in P_markers. by apply Forall_app in P_markers as [? _]. Qed.

Lemma P_endraw : Forall P ENDRAW.
Proof. unfold marker_text in P_markers. by apply Forall_app in P_markers as [_ ?]. Qed.

Lemma raw_sub_Forall rx (s : text) :
  groups rx = [(0, length (items rx))] →
  Forall P s → Forall P (re_sub rx (expand raw_template) s).
Proof.
  intros Hg. apply sub_from_Forall. clear s. intros s lens He Hs.
  rewrite (expand_raw_template _ _ _ Hg He). unfold wrapped.
  rewrite !Forall_app. split_and!;
    [apply P_raw | by apply Forall_take | apply P_endraw].
Qed.

Lemma fix_line_Forall (line : text) :
  Forall P line → Forall P (fix_line uni_alnum line).
Proof.
  intros Hl. unfold fix_line. repeat case_match; try done.
  by apply raw_sub_Forall.
Qed.

(** The newlines between the lines of the result are those of the text. *)
Lemma rule_inline_Forall (s : text) :
  Forall P s → Forall P (rule_inline uni_alnum s).
Proof.
  intros Hs. rewrite rule_inline_lines.
  destruct (decide (NL ∈ s)) as [Hnl|Hnl].
  - apply join_nl_Forall; [by apply (proj1 (Forall_forall _ _) Hs)|].
    apply split_nl_Forall in Hs. apply Forall_fmap.
    eapply Forall_impl; [exact Hs|]. intros l Hl. by apply fix_line_Forall.
  - rewrite split_nl_last by done. simpl. by apply fix_line_Forall.
Qed.

Lemma later_rules_Forall (s : text) :
  Forall P s →
  Forall P (rule_struct uni_alnum (rule_actions (rule_inline uni_alnum s))).
Proof.
  intros Hs. unfold rule_struct, rule_actions.
  apply raw_sub_Forall; [done|]. apply raw_sub_Forall; [done|].
  by apply rule_inline_Forall.
Qed.

End Characters.

Section Written.

Variable uni_alnum : N → bool.
Variable line_28 : text → text → text.

(** X6: every character of the text that the second, third and fourth
    rule produce is a character of the text they were given or one of the
    characters of the two markers. *)
Theorem only_marker_text_added (content : text) :
  Forall (λ c, c ∈ content ∨ c ∈ marker_text)
    (rule_struct uni_alnum (rule_actions (rule_inline uni_alnum content))).
Proof.
  apply later_rules_Forall.
  - apply Forall_forall. auto.
  - apply Forall_forall. auto.
Qed.

(** X12: the second, third and fourth rule only insert text: each keeps
    its input as a subsequence of its output, and so does their
    composition, whose output is at least as long as its input and has
    the same length only when it is the same text. *)
Theorem later_rules_only_insert (content : text) :
  let later c :=
    rule_struct uni_alnum (rule_actions (rule_inline uni_alnum c)) in
  content `sublist_of` rule_inline uni_alnum content
  ∧ content `sublist_of` rule_actions content
  ∧ content `sublist_of` rule_struct uni_alnum content
  ∧ content `sublist_of` later content
  ∧ length content ≤ length (later content)
  ∧ (length (later content) = length content ↔ later content = content).
Proof.
  cbv zeta. pose proof (later_rules_sublist uni_alnum content) as H.
  split_and!.
  - apply rule_inline_sublist.
  - apply rule_actions_sublist.
  - apply rule_struct_sublist.
  - done.
  - by apply sublist_length.
  - split; [|by intros ->].
    intros Hlen. symmetry. apply sublist_same_length; [done | lia].
Qed.

(** X7: when fix_file writes, the file is a regular file that can be read
    and written, the write goes to it and nowhere else, and True is
    returned; the text written is what the four rules make of the text
    read, differs from it, and contains the output of the first rule as a
    subsequence.  When the text read has no triple backtick, the text
    written holds no carriage return (the text was read with universal
    newlines and the later rules add none), contains the text read as a
    subsequence and is strictly longer. *)
Theorem written_text_normalised
    (filepath : text) (fs : store) (path written : text) :
  EvWrite path written ∈ trace_of (fix_file uni_alnum line_28 filepath fs) →
  ∃ stored,
    let original := universal_newlines stored in
    fs !! filepath = Some (Regular true (Some stored) true)
    ∧ path = filepath
    ∧ fix_file uni_alnum line_28 filepath fs
      = Done true (<[filepath := Regular true (Some written) true]> fs)
             [EvRead filepath; EvWrite filepath written]
    ∧ written = transform uni_alnum line_28 original
    ∧ written ≠ original
    ∧ rule_code_blocks uni_alnum line_28 original `sublist_of` written
    ∧ (contains FENCE original = false →
       (CR ∉ written) ∧ original `sublist_of` written
       ∧ length original < length written).
Proof.
  rewrite fix_file_run.
  destruct (fs !! filepath) as [[|[] [stored|] w]|];
    try (by intros ?%elem_of_nil).
  cbv zeta. case_bool_decide as Hd.
  2:{ cbn [trace_of]. intros Hin. apply elem_of_cons in Hin as [?|Hin]; [done|].
      by apply elem_of_nil in Hin. }
  destruct w; cbn [trace_of]; intros Hin.
  2:{ apply elem_of_cons in Hin as [?|Hin]; [done|]. by apply elem_of_nil in Hin. }
  apply elem_of_cons in Hin as [?|Hin]; [done|].
  apply elem_of_cons in Hin as [Hin|Hin]; [|by apply elem_of_nil in Hin].
  injection Hin as -> ->. exists stored. cbv zeta. split_and!; try done.
  - apply later_rules_sublist.
  - intros Hfence. unfold transform in *.
    rewrite (rule_code_blocks_no_fence uni_alnum line_28 _ Hfence) in *.
    pose proof (later_rules_sublist uni_alnum (universal_newlines stored))
      as Hsub.
    split_and!; [|done|].
    + assert (H : Forall (λ c, c ≠ CR)
                    (rule_struct uni_alnum
                       (rule_actions
                          (rule_inline uni_alnum (universal_newlines stored))))).
      { apply later_rules_Forall; [by vm_compute; repeat constructor|].
        apply universal_newlines_no_cr. }
      rewrite Forall_forall in H. intros Hcr. by apply (H _ Hcr).
    + pose proof (sublist_length _ _ Hsub).
      destruct (decide (length (rule_struct uni_alnum
                          (rule_actions
                             (rule_inline uni_alnum (universal_newlines stored))))
                        ≤ length (universal_newlines stored))) as [Hle|]; [|lia].
      destruct Hd. symmetry. by apply sublist_same_length.
Qed.

(** X8: fix_file returns exactly when the path names a regular file that
    can be read and decoded and that either needs no change or can be
    written; otherwise it raises and leaves the store as it was.  In
    every case the path names something afterwards just when it did
    before, and every other path is as it was. *)
Theorem fix_file_frame (filepath : text) (fs : store) :
  let o := fix_file uni_alnum line_28 filepath fs in
  (returns o ↔
   ∃ stored writable,
     fs !! filepath = Some (Regular true (Some stored) writable)
     ∧ (transform uni_alnum line_28 (universal_newlines stored)
        = universal_newlines stored ∨ writable = true))
  ∧ (¬ returns o → store_of o = fs)
  ∧ (is_Some (store_of o !! filepath) ↔ is_Some (fs !! filepath))
  ∧ ∀ other, other ≠ filepath → store_of o !! other = fs !! other.
Proof.
  cbv zeta.
  pose proof (fix_file_store uni_alnum line_28 filepath fs) as Hst.
  cbv zeta in Hst. split_and!.
  - rewrite fix_file_run.
    destruct (fs !! filepath) as [[|[] [stored|] w]|];
      try (split; [done|by intros (? & ? & ? & _)]).
    cbv zeta. case_bool_decide as Hd.
    + destruct w; cbn [returns].
      * split; [|done]. intros _. exists stored, true. auto.
      * split; [done|]. intros (? & ? & [= <- <-] & [?|?]); done.
    + cbn [returns]. split; [|done]. intros _. exists stored, w.
      split; [done|]. left. by destruct (decide
        (transform uni_alnum line_28 (universal_newlines stored)
         = universal_newlines stored)).
  - rewrite fix_file_run.
    destruct (fs !! filepath) as [[|[] [stored|] w]|]; try done.
    cbv zeta. case_bool_decide; [|by intros []].
    destruct w; [by intros []|done].
  - apply Hst.
  - intros other Hne. by apply Hst.
Qed.

End Written.

(** ** The run over the list of files *)

Lemma write_count_cons (e : event) (t : list event) :
  write_count (e :: t)
  = (match e with EvWrite _ _ => 1 | _ => 0 end) + write_count t.
Proof. by destruct e. Qed.

Lemma write_count_app (t t' : list event) :
  write_count (t ++ t') = write_count t + write_count t'.
Proof. unfold write_count. by rewrite omap_app, length_app. Qed.

Lemma checked_paths_cons (e : event) (t : list event) :
  checked_paths (e :: t)
  = (match e with EvExists p _ => [p] | _ => [] end) ++ checked_paths t.
Proof. by destruct e. Qed.

Lemma read_paths_cons (e : event) (t : list event) :
  read_paths (e :: t)
  = (match e with EvRead p => [p] | _ => [] end) ++ read_paths t.
Proof. by destruct e. Qed.

Section Run.

Variable uni_alnum : N → bool.
Variable docs_dir : text.
Variable line_28 : text → text → text.
Variable console_ok : text → bool.

Lemma present_paths_insert (files : list text) (fs : store)
    (path : text) (nd nd' : node) :
  fs !! path = Some nd →
  present_paths docs_dir files (<[path := nd']> fs)
  = present_paths docs_dir files fs.
Proof.
  intros Hfs. unfold present_paths. apply list_filter_iff. intros p.
  destruct (decide (p = path)) as [->|Hne].
  - rewrite lookup_insert_eq, Hfs. split; eauto.
  - by rewrite lookup_insert_ne.
Qed.

(** The four ways fix_file ends. *)
Lemma fix_file_cases (filepath : text) (fs : store) :
  let o := fix_file uni_alnum line_28 filepath fs in
  o = Raised fs [] ∨ o = Raised fs [EvRead filepath]
  ∨ o = Done false fs [EvRead filepath]
  ∨ ∃ nd nd' c,
      fs !! filepath = Some nd
      ∧ o = Done true (<[filepath := nd']> fs)
              [EvRead filepath; EvWrite filepath c].
Proof.
  cbv zeta. rewrite fix_file_run.
  destruct (fs !! filepath) as [[|[] [stored|] w]|]; auto.
  cbv zeta. case_bool_decide; [|auto]. destruct w; [|auto].
  right. right. right. eauto.
Qed.

(** What the loop does, read off its outcome. *)
Lemma process_files_trace (files : list text) (n : nat) (fs : store) :
  let o := process_files uni_alnum docs_dir line_28 console_ok files n fs in
  (∀ q, is_Some (store_of o !! q) ↔ is_Some (fs !! q))
  ∧ (∀ q, q ∉ map (path_join docs_dir) files → store_of o !! q = fs !! q)
  ∧ write_count (trace_of o) ≤ length files
  ∧ checked_paths (trace_of o) `prefix_of` map (path_join docs_dir) files
  ∧ read_paths (trace_of o) `prefix_of` present_paths docs_dir files fs
  ∧ match o with
    | Done n' _ t =>
        n' = n + write_count t
        ∧ checked_paths t = map (path_join docs_dir) files
        ∧ read_paths t = present_paths docs_dir files fs
    | Raised _ _ => True
    end.
Proof.
  cbv zeta. revert n fs. induction files as [|file rest IH]; intros n fs.
  - simpl. split_and!; try done; lia.
  - rewrite process_files_cons. cbv zeta.
    set (full := path_join docs_dir file).
    assert (∀ (l : list event) (n' : nat) (fs' : store),
      (∀ q, is_Some (fs' !! q) ↔ is_Some (fs !! q)) →
      (∀ q, q ≠ full → fs' !! q = fs !! q) →
      present_paths docs_dir rest fs' = present_paths docs_dir rest fs →
      n' = n + write_count l → write_count l ≤ 1 →
      checked_paths l = [full] →
      read_paths l ++ present_paths docs_dir rest fs
      = present_paths docs_dir (file :: rest) fs →
      let o := prepend l (process_files uni_alnum docs_dir line_28 console_ok
                            rest n' fs') in
      (∀ q, is_Some (store_of o !! q) ↔ is_Some (fs !! q))
      ∧ (∀ q, q ∉ map (path_join docs_dir) (file :: rest) →
           store_of o !! q = fs !! q)
      ∧ write_count (trace_of o) ≤ length (file :: rest)
      ∧ checked_paths (trace_of o)
          `prefix_of` map (path_join docs_dir) (file :: rest)
      ∧ read_paths (trace_of o)
          `prefix_of` present_paths docs_dir (file :: rest) fs
      ∧ match o with
        | Done n'' _ t =>
            n'' = n + write_count t
            ∧ checked_paths t = map (path_join docs_dir) (file :: rest)
            ∧ read_paths t = present_paths docs_dir (file :: rest) fs
        | Raised _ _ => True
        end) as Hstep.
    { intros l n' fs' Hdom Hout Hpres Hn Hw Hc Hr. cbv zeta.
      destruct (IH n' fs') as (Ha & Hb & Hcnt & Hchk & Hrd & Hdone).
      rewrite store_of_prepend, trace_of_prepend.
      unfold write_count, checked_paths, read_paths in *.
      rewrite !omap_app, length_app.
      rewrite Hc. rewrite <- Hr. rewrite Hpres in Hrd.
      split_and!.
      - intros q. by rewrite Ha.
      - intros q Hq. cbn [map] in Hq. apply not_elem_of_cons in Hq as [Hne Hq].
        rewrite (Hb q Hq). by apply Hout.
      - cbn [length]. lia.
      - cbn [map app]. by apply prefix_cons.
      - by apply prefix_app.
      - destruct (process_files _ _ _ _ rest n' fs') as [n'' fs'' t|fs'' t];
          cbn [prepend trace_of] in *; [|done].
        destruct Hdone as (Hn'' & Hchk' & Hrd').
        rewrite !omap_app, length_app, Hc, Hchk', Hrd', Hpres.
        split_and!; [lia|done|done]. }
    assert (∀ (fs' : store) (l : list event),
      (∀ q, is_Some (fs' !! q) ↔ is_Some (fs !! q)) →
      (∀ q, q ≠ full → fs' !! q = fs !! q) →
      write_count l ≤ 1 →
      checked_paths l = [full] →
      read_paths l `prefix_of` present_paths docs_dir (file :: rest) fs →
      let o : outcome nat := Raised fs' l in
      (∀ q, is_Some (store_of o !! q) ↔ is_Some (fs !! q))
      ∧ (∀ q, q ∉ map (path_join docs_dir) (file :: rest) →
           store_of o !! q = fs !! q)
      ∧ write_count (trace_of o) ≤ length (file :: rest)
      ∧ checked_paths (trace_of o)
          `prefix_of` map (path_join docs_dir) (file :: rest)
      ∧ read_paths (trace_of o)
          `prefix_of` present_paths docs_dir (file :: rest) fs
      ∧ True) as Hstop.
    { intros fs' l Hdom Hout Hw Hc Hr. cbv zeta. cbn [store_of trace_of].
      split_and!; try done.
      - intros q Hq. cbn [map] in Hq. apply not_elem_of_cons in Hq as [Hne Hq].
        by apply Hout.
      - cbn [length]. lia.
      - rewrite Hc. cbn [map]. apply prefix_cons, prefix_nil. }
    destruct (fs !! full) as [nd|] eqn:Hfs.
    + assert (present_paths docs_dir (file :: rest) fs
              = full :: present_paths docs_dir rest fs) as Hpp.
      { unfold present_paths. cbn [map]. fold full.
        by rewrite filter_cons_True by (rewrite Hfs; eauto). }
      assert (∀ nd', ∀ q, is_Some (<[full:=nd']> fs !! q) ↔ is_Some (fs !! q))
        as Hdom.
      { intros nd' q. destruct (decide (q = full)) as [->|Hne].
        - rewrite lookup_insert_eq, Hfs. split; eauto.
        - by rewrite lookup_insert_ne. }
      assert (∀ nd', ∀ q, q ≠ full → <[full:=nd']> fs !! q = fs !! q) as Hout.
      { intros nd' q Hne. by rewrite lookup_insert_ne. }
      destruct (console_ok (msg_processing file));
        [destruct (fix_file_cases full fs)
           as [E|[E|[E|(nd0 & nd' & c & Hnd & E)]]];
         cbv zeta in E; rewrite E;
         [ | |destruct (console_ok msg_no_changes)
             |destruct (console_ok msg_fixed)]|];
        first [apply Hstep | apply Hstop];
        solve [ done | cbn; lia | apply prefix_nil
              | rewrite Hpp; apply prefix_cons, prefix_nil
              | by rewrite Hpp
              | by apply (present_paths_insert _ _ _ nd)
              | apply Hout | apply Hdom ].
    + assert (present_paths docs_dir (file :: rest) fs
              = present_paths docs_dir rest fs) as Hpp.
      { unfold present_paths. cbn [map]. fold full.
        rewrite filter_cons_False; [done|]. rewrite Hfs. by intros [? ?]. }
      destruct (console_ok (msg_not_found full));
        first [apply Hstep | apply Hstop];
        solve [ done | cbn; lia | apply prefix_nil | by rewrite Hpp ].
Qed.

(** X9: whatever the outcome of main, no file is created or removed,
    every path that is not listed is as it was, and there are at most as
    many writes as listed files; when main returns, its last event is the
    summary line, and the count in it is the number of writes. *)
Theorem main_effects_bounded (fs : store) :
  let o := main uni_alnum docs_dir line_28 console_ok fs in
  (∀ q, is_Some (store_of o !! q) ↔ is_Some (fs !! q))
  ∧ (∀ q, q ∉ map (path_join docs_dir) files_to_fix →
       store_of o !! q = fs !! q)
  ∧ write_count (trace_of o) ≤ length files_to_fix
  ∧ ∀ u fs' t, o = Done u fs' t →
      ∃ t0, t = t0 ++ [EvPrint (msg_summary (write_count t0))].
Proof.
  cbv zeta. rewrite main_run.
  destruct (process_files_trace files_to_fix 0 fs)
    as (Hdom & Hout & Hw & _ & _ & Hdone).
  destruct (process_files _ _ _ _ files_to_fix 0 fs) as [n fs1 t1|fs1 t1];
    cbn [and_then store_of trace_of] in *.
  - destruct Hdone as (-> & _ & _). unfold print.
    destruct (console_ok (msg_summary _));
      cbn [prepend store_of trace_of]; split_and!; try done.
    + rewrite write_count_app.
      change (write_count [EvPrint (msg_summary (0 + write_count t1))]) with 0.
      lia.
    + intros u fs' t E. simplify_eq. by exists t1.
    + by rewrite app_nil_r.
  - split_and!; done.
Qed.

(** X10: main checks listed files for existence in the order of the list,
    each at most once, and reads, in the same order, listed files that
    exist in the store it was started on; when it returns it has checked
    every listed file and read every one that exists. *)
Theorem main_visits_in_order (fs : store) :
  let o := main uni_alnum docs_dir line_28 console_ok fs in
  checked_paths (trace_of o) `prefix_of` map (path_join docs_dir) files_to_fix
  ∧ read_paths (trace_of o)
      `prefix_of` present_paths docs_dir files_to_fix fs
  ∧ (returns o →
     checked_paths (trace_of o) = map (path_join docs_dir) files_to_fix
     ∧ read_paths (trace_of o) = present_paths docs_dir files_to_fix fs).
Proof.
  cbv zeta. rewrite main_run.
  destruct (process_files_trace files_to_fix 0 fs)
    as (_ & _ & _ & Hc & Hr & Hdone).
  destruct (process_files _ _ _ _ files_to_fix 0 fs) as [n fs1 t1|fs1 t1];
    cbn [and_then store_of trace_of] in *; [|done].
  destruct Hdone as (_ & Hc' & Hr'). unfold print.
  destruct (console_ok (msg_summary n)); cbn [prepend trace_of returns];
    unfold checked_paths, read_paths in *; rewrite !omap_app; simpl;
    rewrite !app_nil_r; done.
Qed.

(** The loop returns when the console can show every line and every
    listed file that exists can be read and written. *)
Lemma process_files_returns (files : list text) (n : nat) (fs : store) :
  (∀ line, console_ok line = true) →
  (∀ file nd, file ∈ files → fs !! path_join docs_dir file = Some nd →
     ∃ stored, nd = Regular true (Some stored) true) →
  returns (process_files uni_alnum docs_dir line_28 console_ok files n fs).
Proof.
  intros Hc. revert n fs. induction files as [|file rest IH]; intros n fs Hfs.
  - done.
  - rewrite process_files_cons. cbv zeta. rewrite !Hc.
    destruct (fs !! path_join docs_dir file) as [nd|] eqn:Hfile.
    + destruct (Hfs file nd) as [stored ->]; [by left|done|].
      rewrite fix_file_run, Hfile. cbv zeta. case_bool_decide.
      * apply returns_prepend, IH. intros file' nd' Hin.
        destruct (decide (path_join docs_dir file' = path_join docs_dir file))
          as [->|Hne].
        -- rewrite lookup_insert_eq. intros [= <-]. eauto.
        -- rewrite lookup_insert_ne by done. apply Hfs. by right.
      * apply returns_prepend, IH. intros file' nd' Hin. apply Hfs. by right.
    + apply returns_prepend, IH. intros file' nd' Hin. apply Hfs. by right.
Qed.

(** X14: main returns, ending with the summary line, when the console can
    show every line and every listed file that exists is a regular file
    that can be read, decoded and written. *)
Theorem main_completes_when_healthy (fs : store) :
  (∀ line, console_ok line = true) →
  (∀ file nd, file ∈ files_to_fix →
     fs !! path_join docs_dir file = Some nd →
     ∃ stored, nd = Regular true (Some stored) true) →
  ∃ fs' t,
    main uni_alnum docs_dir line_28 console_ok fs
    = Done () fs' (t ++ [EvPrint (msg_summary (write_count t))]).
Proof.
  intros Hc Hfs. rewrite main_run.
  pose proof (process_files_returns files_to_fix 0 fs Hc Hfs) as Hret.
  destruct (process_files_trace files_to_fix 0 fs)
    as (_ & _ & _ & _ & _ & Hdone).
  destruct (process_files _ _ _ _ files_to_fix 0 fs) as [n fs1 t1|fs1 t1];
    [|done].
  destruct Hdone as (-> & _ & _). cbn [and_then]. unfold print.
  rewrite Hc. by exists fs1, t1.
Qed.

(** X15: when the console cannot show the File-not-found line of a listed
    file that is missing, main raises at that line: the run ends after the
    existence check, with the store as the files before left it, and
    neither the files after it nor the summary are reached. *)
Theorem unprintable_not_found_stops_run
    (before after : list text) (file : text) (fs fs1 : store)
    (n1 : nat) (t1 : list event) :
  files_to_fix = before ++ file :: after →
  fs !! path_join docs_dir file = None →
  console_ok (lit "  " ++ 10007%N :: lit " File not found: "
              ++ path_join docs_dir file) = false →
  process_files uni_alnum docs_dir line_28 console_ok before 0 fs
  = Done n1 fs1 t1 →
  main uni_alnum docs_dir line_28 console_ok fs
  = Raised fs1 (t1 ++ [EvExists (path_join docs_dir file) false]).
Proof.
  intros Hlist Hfs Hc H1.
  pose proof (process_files_missing_kept uni_alnum docs_dir line_28 console_ok
                before 0 fs _ Hfs) as Hb.
  cbv zeta in Hb. rewrite H1 in Hb. destruct Hb as [Hfs1 _].
  cbn [store_of] in Hfs1.
  rewrite main_run, Hlist, process_files_app, H1. cbn [and_then].
  rewrite process_files_cons. cbv zeta. rewrite Hfs1.
  change (msg_not_found (path_join docs_dir file))
    with (lit "  " ++ 10007%N :: lit " File not found: "
          ++ path_join docs_dir file).
  by rewrite Hc.
Qed.

End Run.

(** ** Where each rule can act *)

Section Openings.

Variable uni_alnum : N → bool.
Variable line_28 : text → text → text.

(** X11: each rule leaves a text as it is when the characters its pattern
    starts with do not occur in it: three backticks for the substitution
    of the first rule, whatever its callback returns, [{{.] for the
    second rule, [${{] for the third, [{{] for the fourth. *)
Theorem rules_need_their_opening (content : text) :
  (contains FENCE content = false →
   ∀ repl, re_sub (rx_fence uni_alnum) repl content = content)
  ∧ (contains GO_DOT content = false →
     rule_inline uni_alnum content = content)
  ∧ (contains ACTIONS_OPEN content = false → rule_actions content = content)
  ∧ (contains BRACES_OPEN content = false →
     rule_struct uni_alnum content = content).
Proof.
  split_and!.
  - intros H repl. by apply fence_sub_no_fence.
  - apply rule_inline_no_dot.
  - apply rule_actions_no_open.
  - apply rule_struct_no_open.
Qed.

Lemma after_tag_spec (tag rest : text) :
  Forall (λ c, is_word uni_alnum c = true) tag →
  after_tag uni_alnum (tag ++ NL :: rest) = Some rest.
Proof.
  induction 1 as [|c tag Hc Htag IH]; simpl; [done|].
  pose proof (newline_not_word uni_alnum c Hc) as Hnl.
  apply N.eqb_neq in Hnl as ->. by rewrite Hc.
Qed.

Lemma unclosed_suffix (a s : text) :
  unclosed uni_alnum (a ++ s) = true → unclosed uni_alnum s = true.
Proof.
  induction a as [|x a IH]; [done|]. intros H. apply IH.
  change ((x :: a) ++ s) with (x :: (a ++ s)) in H.
  cbn [unclosed] in H. by apply andb_true_iff in H as [_ ?].
Qed.

(** The check [unclosed] decides the property it is named after. *)
Lemma unclosed_spec (doc : text) :
  unclosed uni_alnum doc = true →
  ∀ a tag rest,
    doc = a ++ FENCE ++ tag ++ NL :: rest →
    Forall (λ c, is_word uni_alnum c = true) tag →
    contains FENCE rest = false.
Proof.
  intros H a tag rest -> Htag. apply unclosed_suffix in H.
  assert (opening_rest uni_alnum (FENCE ++ tag ++ NL :: rest) = Some rest)
    as Ho.
  { unfold opening_rest.
    replace (starts_with FENCE (FENCE ++ tag ++ NL :: rest)) with true
      by (symmetry; apply starts_with_spec; eauto).
    change (drop 3 (FENCE ++ tag ++ NL :: rest)) with (tag ++ NL :: rest).
    by apply after_tag_spec. }
  assert (match opening_rest uni_alnum (FENCE ++ tag ++ NL :: rest) with
          | Some r => negb (contains FENCE r)
          | None => true
          end = true) as Hhead.
  { destruct (FENCE ++ tag ++ NL :: rest); cbn [unclosed] in H;
      by apply andb_true_iff in H as [? _]. }
  rewrite Ho in Hhead. by apply negb_true_iff in Hhead.
Qed.

(** X13: a document in which no opening fence (three backticks, word
    characters, a newline) has a triple backtick after it is left as it
    is by the substitution of the first rule, whatever its callback
    returns: so is a block whose fence carries another info string, with
    any markers in its body and inline code spans around it, when no
    triple backtick follows its closing fence. *)
Theorem unclosed_fences_unchanged (doc : text) :
  (∀ a tag rest,
     doc = a ++ FENCE ++ tag ++ NL :: rest →
     Forall (λ c, is_word uni_alnum c = true) tag →
     contains FENCE rest = false) →
  (∀ repl, re_sub (rx_fence uni_alnum) repl doc = doc)
  ∧ rule_code_blocks uni_alnum line_28 doc = doc.
Proof.
  intros H. split; [intros repl|]; by apply unclosed_scan.
Qed.

(** X16: the scan pairs fences from the left.  After a block whose
    opening fence it does not recognise, the closing fence of that block is
    matched as an opening fence and paired with the next triple backtick;
    when the text between them holds a marker, the match is handed to line
    28 with an empty tag, and the text returned there takes the place of
    the closing fence of the unrecognised block and of what follows it up
    to the next fence. *)
Theorem closing_fence_taken_as_opening :
  rule_code_blocks uni_alnum line_28 (lit "```c++
{{.x}}
```
{{end}}
```
")
  = lit "```c++
{{.x}}
" ++ line_28 [] (lit "{{end}}
") ++ [NL].
Proof. vm_compute. reflexivity. Qed.

End Openings.

(** ** Examples of the further properties *)

(** X1 at a read-only file of plain text with a Windows line end. *)
Lemma pattern_free_file_untouched_witness :
  let path := lit "a.md" in
  let stored := lit "plain text" ++ [CR; NL] ++ lit "more" in
  let fs : store := {[ path := Regular true (Some stored) false ]} in
  fix_file ascii_only example_line_28 path fs = Done false fs [EvRead path].
Proof.
  intros path stored fs.
  apply (pattern_free_file_untouched ascii_only example_line_28 path
           stored false fs).
  - apply lookup_singleton_eq.
  - reflexivity.
  - reflexivity.
Defined.

(** X3 at a line that already holds the raw markers, before a line that
    does not. *)
Lemma inline_guarded_lines_kept_witness :
  let first := lit "{% raw %}{{.x}}{% endraw %}" in
  let content := first ++ NL :: lit "{{.y}}" in
  length (split_nl (rule_inline ascii_only content)) = 2
  ∧ split_nl (rule_inline ascii_only content) !! 0 = Some first.
Proof.
  intros first content.
  destruct (inline_guarded_lines_kept ascii_only content) as [Hlen Hkeep].
  split; [exact Hlen|].
  apply Hkeep; [reflexivity|]. left. reflexivity.
Defined.

(** X7 at a file with one GitHub-Actions span and a Windows line end. *)
Lemma written_text_normalised_witness :
  let path := lit "a.md" in
  let stored := lit "url: ${{ t }}" ++ [CR; NL] in
  let written := lit "url: {% raw %}${{ t }}{% endraw %}" ++ [NL] in
  let fs : store := {[ path := plain_file stored ]} in
  fix_file ascii_only example_line_28 path fs
  = Done true (<[path := plain_file written]> fs)
         [EvRead path; EvWrite path written].
Proof.
  intros path stored written fs.
  destruct (written_text_normalised ascii_only example_line_28 path fs
              path written) as (stored' & _ & _ & E & _).
  - rewrite fix_file_run. unfold fs. rewrite lookup_singleton_eq.
    right. left.
  - exact E.
Defined.

(** X13 at a C++ block with a marker, between two lines with inline code
    spans. *)
Lemma unclosed_fences_unchanged_witness :
  let doc := lit "See `a`:
```c++
f({{.x}});
```
and `b`.
" in
  rule_code_blocks ascii_only example_line_28 doc = doc.
Proof.
  intros doc.
  apply (unclosed_fences_unchanged ascii_only example_line_28 doc).
  apply unclosed_spec. reflexivity.
Defined.

(** X14 on a store that holds one listed file, which is rewritten. *)
Lemma main_completes_when_healthy_witness :
  let first := path_join example_docs_dir (lit "concepts/templates.md") in
  let fs : store := {[ first := plain_file (lit "url: ${{ t }}") ]} in
  ∃ fs' t,
    main ascii_only example_docs_dir example_line_28 utf8_console fs
    = Done () fs' (t ++ [EvPrint (msg_summary (write_count t))]).
Proof.
  intros first fs.
  apply (main_completes_when_healthy ascii_only example_docs_dir
           example_line_28 utf8_console fs).
  - reflexivity.
  - intros file nd _ [_ <-]%lookup_singleton_Some. by eexists.
Defined.

(** X15 on an empty store, with a console that shows ASCII only: the run
    ends at the first listed file. *)
Lemma unprintable_not_found_stops_run_witness :
  main ascii_only example_docs_dir example_line_28 ascii_console ∅
  = Raised ∅ [EvExists
                (path_join example_docs_dir (lit "concepts/templates.md"))
                false].
Proof.
  apply (unprintable_not_found_stops_run ascii_only example_docs_dir
           example_line_28 ascii_console [] (tail files_to_fix)
           (lit "concepts/templates.md") ∅ ∅ 0 []).
  - reflexivity.
  - apply lookup_empty.
  - reflexivity.
  - reflexivity.
Defined.
